(** * The Firehose metric transformer (lambda_function.py)

    A shallow embedding of the transformation Lambda: length-delimited
    framing of export requests, the pass that appends one synthetic summary
    metric per matched function name and scope, and the record pipeline of
    the handler.

    Conventions of the embedding.
    - A Python [bytes] value is a [list byte]; a Python [str] is a [string]
      whose characters stand for the code points below 256.
    - Python integers that are never negative here (buffer positions,
      lengths, varint values) are [N]; timestamps are [Z].
    - An exception is a value of [exn]; a call that may raise returns an
      [outcome].
    - Logging is not modelled: it has no influence on any returned value. *)

From Stdlib Require Import PrimFloat QArith Qabs Ascii String.
From stdpp Require Import gmap strings list fin_maps.
From Equations Require Import Equations.
From Stdlib.Strings Require Import Byte.

Local Open Scope string_scope.
Local Open Scope list_scope.
Local Open Scope N_scope.

(** ** Exceptions *)

Inductive exn : Type :=
| IndexError      (* indexing a buffer past its end *)
| DecodeError     (* google.protobuf.message.DecodeError *)
| KeyError        (* a dict has no such key *)
| BinasciiError.  (* base64.b64decode rejects its argument *)

Inductive outcome (A : Type) : Type :=
| Ok (a : A)
| Raise (e : exn).
Arguments Ok {A} a.
Arguments Raise {A} e.

Definition is_raise {A} (r : outcome A) : bool :=
  match r with Raise _ => true | Ok _ => false end.

Abbreviation bytes := (list byte).

(** [len(data)] *)
Definition len {A} (data : list A) : N := N.of_nat (length data).

(** [data[lo:hi]] for indices that are not negative: Python clamps both ends
    to the length of the buffer and never raises. *)
Definition slice {A} (data : list A) (lo hi : N) : list A :=
  take (N.to_nat (N.min hi (len data) - lo)) (drop (N.to_nat lo) data).

(** ** Varints of the protobuf runtime *)

Definition byte_val (b : byte) : N := Byte.to_N b.

(** [struct.Struct('>B').pack] on a value below 256. *)
Definition int2byte (n : N) : byte :=
  match Byte.of_N (n mod 256) with Some b => b | None => x00 end.

(** Modelled from the spec: the varint reader of the protobuf runtime
    ([google.protobuf.internal.decoder._DecodeVarint32], built by
    [_VarintDecoder((1 << 32) - 1, int)]), which the repository imports and
    does not contain.  A varint is a base-128 variable-length unsigned
    integer, least significant group first, the high bit of a byte telling
    that another byte follows.  The reader indexes the buffer ([IndexError]
    past its end), gives up after ten bytes ([DecodeError]) and masks the
    value to 32 bits.  [buf] is the buffer from the current position on. *)
Fixpoint DecodeVarint_loop (mask : N) (buf : bytes) (pos result shift : N)
  : outcome (N * N) :=
  match buf with
  | [] => Raise IndexError
  | b :: rest =>
      let result := N.lor result (N.shiftl (N.land (byte_val b) 0x7f) shift) in
      let pos := pos + 1 in
      if N.land (byte_val b) 0x80 =? 0 then Ok (N.land result mask, pos)
      else
        let shift := shift + 7 in
        if 64 <=? shift then Raise DecodeError
        else DecodeVarint_loop mask rest pos result shift
  end.

Definition DecodeVarint32 (buffer : bytes) (pos : N) : outcome (N * N) :=
  DecodeVarint_loop (N.ones 32) (drop (N.to_nat pos) buffer) pos 0 0.

(** Modelled from the spec: the varint writer of the protobuf runtime
    ([google.protobuf.internal.encoder._VarintEncoder]), likewise imported:
    seven bits per byte, least significant group first, the high bit set on
    every byte but the last. *)
Equations? EncodeVarint_loop (bits value : N) : bytes by wf (N.to_nat value) lt :=
  EncodeVarint_loop bits value with N.eq_dec value 0 => {
    | left _ => [int2byte bits];
    | right _ => int2byte (N.lor 0x80 bits)
                   :: EncodeVarint_loop (N.land value 0x7f) (N.shiftr value 7) }.
Proof.
  rewrite N.shiftr_div_pow2. change (2 ^ 7) with 128.
  assert (value / 128 < value) by (apply N.div_lt; lia). lia.
Qed.

Definition EncodeVarint (value : N) : bytes :=
  EncodeVarint_loop (N.land value 0x7f) (N.shiftr value 7).

(** The reader moves forward: the new position is past the old one. *)
Lemma DecodeVarint_loop_pos mask buf pos result shift n p :
  DecodeVarint_loop mask buf pos result shift = Ok (n, p) -> pos < p.
Proof.
  revert pos result shift.
  induction buf as [|b rest IH]; intros pos result shift; simpl; [discriminate|].
  destruct (N.land (byte_val b) 128 =? 0).
  - intros [= _ <-]. lia.
  - destruct (64 <=? shift + 7); [discriminate|].
    intros H. apply IH in H. lia.
Qed.

Lemma DecodeVarint32_pos buffer pos n p :
  DecodeVarint32 buffer pos = Ok (n, p) -> pos < p.
Proof. apply DecodeVarint_loop_pos. Qed.

(** ** Length-delimited streams *)

(** A value together with the equation that it is the value of the call:
    the loop below needs it to know that the position has moved. *)
Definition inspect {A} (a : A) : {b : A | a = b} := exist _ a eq_refl.

Section Framing.
(** The message class and its (de)serializer belong to the protobuf
    runtime.  [ParseFromString] answers [None] where the runtime raises
    [DecodeError]; [SerializeToString] is total. *)
Context {Msg : Type}.
Variable ParseFromString : bytes -> option Msg.
Variable SerializeToString : Msg -> bytes.

(** The [while position < len(data)] loop of [parse_delimited_stream]. *)
Equations? parse_loop (data : bytes) (position : N) (messages : list Msg)
  : outcome (list Msg) by wf (N.to_nat (len data - position)) lt :=
  parse_loop data position messages with N.lt_dec position (len data) => {
    | right _ => Ok messages;
    | left Hlt with inspect (DecodeVarint32 data position) => {
        | exist _ (Raise e) _ => Raise e;
        | exist _ (Ok (msg_len, new_position)) Hvar
            with ParseFromString
                   (slice data new_position (new_position + msg_len)) => {
            | None => Raise DecodeError;
            | Some request =>
                parse_loop data (new_position + msg_len)
                           (messages ++ [request]) } } }.
Proof. apply DecodeVarint32_pos in Hvar. lia. Qed.

Definition parse_delimited_stream (data : bytes) : outcome (list Msg) :=
  parse_loop data 0 [].

(** [serialize_requests_to_delimited_stream]: [all_serialized] is kept
    joined, which is what the final [join] makes of it. *)
Definition serialize_requests_to_delimited_stream (requests : list Msg) : bytes :=
  fold_left
    (fun all_serialized request =>
       let serialized_msg := SerializeToString request in
       let encoded_len_pieces := EncodeVarint (len serialized_msg) in
       (all_serialized ++ encoded_len_pieces) ++ serialized_msg)
    requests [].
End Framing.

(** ** The export-request schema

    The message classes come from the OpenTelemetry protobuf package
    (version 0.7.0 of the protocol); the repository only imports them.  They
    are records here, one module per message class, with the fields that the
    transformer reads or sets.  Whatever else a message holds is never read
    and is kept as it came, as opaque bytes ([unread], [resource],
    [instrumentation_library]). *)

Module StringKeyValue.
Record t := mk { key : string; value : string }.

#[global] Instance eq_dec : EqDecision t.
Proof. solve_decision. Defined.
End StringKeyValue.

Module ValueAtQuantile.
Record t := mk { quantile : float; value : float }.
End ValueAtQuantile.

Module DoubleSummaryDataPoint.
Record t := mk {
  labels : list StringKeyValue.t;
  start_time_unix_nano : Z;
  time_unix_nano : Z;
  count : Z;
  sum : float;
  quantile_values : list ValueAtQuantile.t }.
End DoubleSummaryDataPoint.

(** The data points of the other metric shapes. *)
Module DataPoint.
Record t := mk { labels : list StringKeyValue.t; unread : bytes }.
End DataPoint.

Module Points.
Record t := mk { data_points : list DataPoint.t; unread : bytes }.
End Points.

Module DoubleSummary.
Record t := mk { data_points : list DoubleSummaryDataPoint.t }.
End DoubleSummary.

(** The [data] oneof of a metric: at most one branch is populated. *)
Inductive MetricData : Type :=
| data_not_set
| int_gauge (d : Points.t)
| double_gauge (d : Points.t)
| int_sum (d : Points.t)
| double_sum (d : Points.t)
| int_histogram (d : Points.t)
| double_histogram (d : Points.t)
| double_summary (d : DoubleSummary.t).

Module Metric.
Record t := mk {
  name : string;
  description : string;
  unit : string;
  data : MetricData }.

(** [metric.WhichOneof('data')] *)
Definition WhichOneof (metric : t) : option string :=
  match data metric with
  | data_not_set => None
  | int_gauge _ => Some "int_gauge"
  | double_gauge _ => Some "double_gauge"
  | int_sum _ => Some "int_sum"
  | double_sum _ => Some "double_sum"
  | int_histogram _ => Some "int_histogram"
  | double_histogram _ => Some "double_histogram"
  | double_summary _ => Some "double_summary"
  end%string.

(** [dp.labels] for each [dp] of [getattr(metric, metric_type).data_points],
    in order. *)
Definition data_points_labels (metric : t) : list (list StringKeyValue.t) :=
  match data metric with
  | data_not_set => []
  | int_gauge d | double_gauge d | int_sum d | double_sum d
  | int_histogram d | double_histogram d =>
      DataPoint.labels <$> Points.data_points d
  | double_summary d =>
      DoubleSummaryDataPoint.labels <$> DoubleSummary.data_points d
  end.
End Metric.

Module InstrumentationLibraryMetrics.
Record t := mk { instrumentation_library : bytes; metrics : list Metric.t }.
End InstrumentationLibraryMetrics.

Module ResourceMetrics.
Record t := mk {
  resource : bytes;
  instrumentation_library_metrics : list InstrumentationLibraryMetrics.t }.
End ResourceMetrics.

Module ExportMetricsServiceRequest.
Record t := mk { resource_metrics : list ResourceMetrics.t }.
End ExportMetricsServiceRequest.

(** ** Configuration from the environment *)

(** [str.isspace] on one character (code points below 256). *)
Definition isspace (c : ascii) : bool :=
  let n := N_of_ascii c in
  ((9 <=? n)%N && (n <=? 13)%N) || ((28 <=? n)%N && (n <=? 32)%N)
  || (n =? 0x85)%N || (n =? 0xa0)%N.

Fixpoint lstrip (s : string) : string :=
  match s with
  | String c s' => if isspace c then lstrip s' else s
  | EmptyString => EmptyString
  end.

Fixpoint rstrip (s : string) : string :=
  match s with
  | String c s' =>
      match rstrip s' with
      | EmptyString => if isspace c then EmptyString else String c EmptyString
      | r => String c r
      end
  | EmptyString => EmptyString
  end.

(** [s.strip()] *)
Definition strip (s : string) : string := rstrip (lstrip s).

(** [s.split(sep)] for a separator of one character: never an empty list. *)
Fixpoint split (sep : ascii) (s : string) : list string :=
  match s with
  | EmptyString => [EmptyString]
  | String c s' =>
      if Ascii.eqb c sep then EmptyString :: split sep s'
      else match split sep s' with
           | piece :: pieces => String c piece :: pieces
           | [] => [String c EmptyString]
           end
  end.

Record Config := {
  TARGET_FUNCTION_NAMES : list string;
  ATTRIBUTE_KEY : option string;
  ATTRIBUTE_VALUE : option string }.

(** The module-level assignments, [environ] being [os.environ]. *)
Definition load_config (environ : gmap string string) : Config :=
  let TARGET_FUNCTION_NAMES_STR := default EmptyString (environ !! "TARGET_FUNCTION_NAMES") in
  {| TARGET_FUNCTION_NAMES :=
       strip <$> filter (fun name => strip name <> EmptyString)
                        (split "," TARGET_FUNCTION_NAMES_STR);
     ATTRIBUTE_KEY := environ !! "ATTRIBUTE_KEY";
     ATTRIBUTE_VALUE := environ !! "ATTRIBUTE_VALUE" |}.

Definition FUNCTION_NAME_LABEL_KEY : string := "FunctionName".

(** Truth value of an [Optional[str]]: [None] and [''] are false. *)
Definition truthy (o : option string) : bool :=
  match o with
  | Some s => negb (String.eqb s EmptyString)
  | None => false
  end.

(** [all([TARGET_FUNCTION_NAMES, ATTRIBUTE_KEY, ATTRIBUTE_VALUE])] *)
Definition all_set (cfg : Config) : bool :=
  match TARGET_FUNCTION_NAMES cfg with [] => false | _ :: _ => true end
  && truthy (ATTRIBUTE_KEY cfg) && truthy (ATTRIBUTE_VALUE cfg).

(** ** The summary metric factory and the augmentation pass *)

(** The dict [{ATTRIBUTE_KEY: ATTRIBUTE_VALUE}], in the order of its items.
    It is built past the guard of [add_custom_summary_metric], where both
    are strings. *)
Definition custom_attrs_dict (cfg : Config) : list (string * string) :=
  match ATTRIBUTE_KEY cfg, ATTRIBUTE_VALUE cfg with
  | Some key, Some value => [(key, value)]
  | _, _ => []
  end.

(** [int(x)] on a finite float, taken as the rational it is: truncation
    towards zero. *)
Definition int (x : Q) : Z := Z.quot (Qnum x) (Z.pos (Qden x)).

Section Augment.
(** The wall clock: [time_time n] is what the [n]-th call of [time.time()]
    in this process returns.  The number of calls made so far is the state
    that the functions below pass along. *)
Variable time_time : nat -> Q.
Variable cfg : Config.

Definition create_custom_summary_metric
    (function_name : string) (custom_attrs : list (string * string))
    (tick : nat) : Metric.t * nat :=
  let current_time_unix_nano := (int (time_time tick) * 1000000000)%Z in
  let labels :=
    [ StringKeyValue.mk "Namespace" "AWS/Lambda";
      StringKeyValue.mk "MetricName" "Custom";
      StringKeyValue.mk FUNCTION_NAME_LABEL_KEY function_name ] in
  let labels :=
    fold_left (fun labels '(key, value) => labels ++ [StringKeyValue.mk key value])
              custom_attrs labels in
  let quantile_values :=
    [ ValueAtQuantile.mk 0%float 1%float;
      ValueAtQuantile.mk 1%float 1%float ] in
  let data_point :=
    DoubleSummaryDataPoint.mk labels current_time_unix_nano
      current_time_unix_nano 1%Z 1%float quantile_values in
  (Metric.mk "amazonaws.com/AWS/Lambda/Custom" EmptyString "{Count}"
     (double_summary (DoubleSummary.mk [data_point])),
   S tick).

(** The state of the scan of one scope: [processed_functions],
    [new_metrics_to_add] and the clock. *)
Definition scan_state : Type := gset string * list Metric.t * nat.

(** The body of [for label in dp.labels]. *)
Definition scan_label (custom_attrs : list (string * string))
    (st : scan_state) (label : StringKeyValue.t) : scan_state :=
  let '(processed_functions, new_metrics_to_add, tick) := st in
  if bool_decide (StringKeyValue.key label = FUNCTION_NAME_LABEL_KEY)
     && bool_decide (StringKeyValue.value label ∈ TARGET_FUNCTION_NAMES cfg)
     && bool_decide (StringKeyValue.value label ∉ processed_functions)
  then
    let function_name := StringKeyValue.value label in
    let '(info_metric, tick) :=
      create_custom_summary_metric function_name custom_attrs tick in
    (processed_functions ∪ {[function_name]},
     new_metrics_to_add ++ [info_metric], tick)
  else st.

(** The body of [for metric in ilm.metrics]. *)
Definition scan_metric (custom_attrs : list (string * string))
    (st : scan_state) (metric : Metric.t) : scan_state :=
  match Metric.WhichOneof metric with
  | None => st
  | Some _ =>
      fold_left
        (fun st dp_labels => fold_left (scan_label custom_attrs) dp_labels st)
        (Metric.data_points_labels metric) st
  end.

(** The body of [for ilm in ...instrumentation_library_metrics]: the scan
    runs over the metrics the scope had, then the list is extended. *)
Definition augment_scope (custom_attrs : list (string * string))
    (ilm : InstrumentationLibraryMetrics.t) (tick : nat)
  : InstrumentationLibraryMetrics.t * nat :=
  let '(_, new_metrics_to_add, tick) :=
    fold_left (scan_metric custom_attrs)
              (InstrumentationLibraryMetrics.metrics ilm) (∅, [], tick) in
  (match new_metrics_to_add with
   | [] => ilm
   | _ :: _ =>
       InstrumentationLibraryMetrics.mk
         (InstrumentationLibraryMetrics.instrumentation_library ilm)
         (InstrumentationLibraryMetrics.metrics ilm ++ new_metrics_to_add)
   end, tick).

(** A [for] loop that updates each element of a list in place, one after
    the other.  The objects of a request tree are distinct (the parser
    builds them), so the update of one is not seen through another. *)
Fixpoint for_each {A B} (body : A -> nat -> B * nat) (l : list A) (tick : nat)
  : list B * nat :=
  match l with
  | [] => ([], tick)
  | x :: l' =>
      let '(x', tick) := body x tick in
      let '(l'', tick) := for_each body l' tick in
      (x' :: l'', tick)
  end.

Definition augment_resource (custom_attrs : list (string * string))
    (resource_metrics : ResourceMetrics.t) (tick : nat) : ResourceMetrics.t * nat :=
  let '(ilms, tick) :=
    for_each (augment_scope custom_attrs)
      (ResourceMetrics.instrumentation_library_metrics resource_metrics) tick in
  (ResourceMetrics.mk (ResourceMetrics.resource resource_metrics) ilms, tick).

Definition augment_request (custom_attrs : list (string * string))
    (request : ExportMetricsServiceRequest.t) (tick : nat)
  : ExportMetricsServiceRequest.t * nat :=
  let '(rms, tick) :=
    for_each (augment_resource custom_attrs)
      (ExportMetricsServiceRequest.resource_metrics request) tick in
  (ExportMetricsServiceRequest.mk rms, tick).

(** [add_custom_summary_metric]: the requests after the call, and the
    clock. *)
Definition add_custom_summary_metric
    (requests : list ExportMetricsServiceRequest.t) (tick : nat)
  : list ExportMetricsServiceRequest.t * nat :=
  if negb (all_set cfg) then (requests, tick)
  else
    let custom_attrs := custom_attrs_dict cfg in
    for_each (augment_request custom_attrs) requests tick.
End Augment.

(** ** The handler *)

Module OutputRecord.
Record t := mk { recordId : string; result : string; data : string }.
End OutputRecord.

(** A record of the event is a dict; the values that the handler reads are
    strings. *)
Abbreviation InputRecord := (gmap string string).

Section Pipeline.
Variable time_time : nat -> Q.
Variable cfg : Config.
(** The protobuf (de)serializer of the request class, as in [Framing]. *)
Variable ParseFromString : bytes -> option ExportMetricsServiceRequest.t.
Variable SerializeToString : ExportMetricsServiceRequest.t -> bytes.
(** [base64.b64decode], [None] where it raises, and
    [base64.b64encode(...).decode('utf-8')]. *)
Variable b64decode : string -> option bytes.
Variable b64encode : bytes -> string.

(** The body of the [try] block: the value of the ['data'] entry of the
    output record, or the exception that leaves the block. *)
Definition transform (record : InputRecord) (tick : nat) : outcome string * nat :=
  match record !! "data" with
  | None => (Raise KeyError, tick)
  | Some data =>
      match b64decode data with
      | None => (Raise BinasciiError, tick)
      | Some payload_bytes =>
          match parse_delimited_stream ParseFromString payload_bytes with
          | Raise e => (Raise e, tick)
          | Ok metric_requests =>
              let '(metric_requests, tick) :=
                add_custom_summary_metric time_time cfg metric_requests tick in
              let output_payload_bytes :=
                serialize_requests_to_delimited_stream SerializeToString
                  metric_requests in
              (Ok (b64encode output_payload_bytes), tick)
          end
      end
  end.

(** [for record in event['records']]: the identifier is read before the
    [try]; the [except] branch reads [record['data']] again. *)
Fixpoint handler_loop (records : list InputRecord)
    (output_records : list OutputRecord.t) (tick : nat)
  : outcome (list OutputRecord.t) * nat :=
  match records with
  | [] => (Ok output_records, tick)
  | record :: records =>
      match record !! "recordId" with
      | None => (Raise KeyError, tick)
      | Some record_id =>
          match transform record tick with
          | (Ok data, tick) =>
              handler_loop records
                (output_records ++ [OutputRecord.mk record_id "Ok" data]) tick
          | (Raise _, tick) =>
              match record !! "data" with
              | None => (Raise KeyError, tick)
              | Some data =>
                  handler_loop records
                    (output_records
                       ++ [OutputRecord.mk record_id "ProcessingFailed" data])
                    tick
              end
          end
      end
  end.

(** [handler(event, context)]; [context] is not used. *)
Definition handler (event : gmap string (list InputRecord)) (tick : nat)
  : outcome (gmap string (list OutputRecord.t)) * nat :=
  match event !! "records" with
  | None => (Raise KeyError, tick)
  | Some records =>
      match handler_loop records [] tick with
      | (Ok output_records, tick) => (Ok {[ "records" := output_records ]}, tick)
      | (Raise e, tick) => (Raise e, tick)
      end
  end.
End Pipeline.

(** ** Concrete collaborators

    The library functions above are parameters of the model.  To run the
    pipeline on concrete buffers they are instantiated here: base64 as the
    Python library encodes and decodes it, and the fragment of the request wire format that covers
    requests whose resource entries are all empty. *)

Module Concrete.
Definition alphabet : list ascii :=
  list_ascii_of_string
    "ABCDEFGHIJKLMNOPQRSTUVWXYZabcdefghijklmnopqrstuvwxyz0123456789+/".

Definition digit (n : N) : ascii :=
  default "="%char (alphabet !! N.to_nat n).

Fixpoint index_of (c : ascii) (l : list ascii) : option N :=
  match l with
  | [] => None
  | x :: l' => if Ascii.eqb c x then Some 0 else N.succ <$> index_of c l'
  end.

Fixpoint encode_chars (l : bytes) : list ascii :=
  match l with
  | [] => []
  | [a] =>
      let n := byte_val a in
      [digit (n / 4); digit (n mod 4 * 16); "="%char; "="%char]
  | [a; b] =>
      let n := byte_val a * 256 + byte_val b in
      [digit (n / 1024); digit (n / 16 mod 64); digit (n mod 16 * 4); "="%char]
  | a :: b :: c :: rest =>
      let n := byte_val a * 65536 + byte_val b * 256 + byte_val c in
      digit (n / 262144) :: digit (n / 4096 mod 64) :: digit (n / 64 mod 64)
        :: digit (n mod 64) :: encode_chars rest
  end.

Definition b64encode (data : bytes) : string :=
  string_of_list_ascii (encode_chars data).

(** [binascii.a2b_base64] as [base64.b64decode] calls it, without
    validation: the characters are read one at a time, a character outside
    the alphabet is skipped, and a pad ends the input once it completes a
    group of four that holds at least two digits.  [quad_pos] is the number
    of digits of the group read so far, [leftchar] their bits not yet
    written, [pads] the pads met since the last digit with [quad_pos] at
    least two.  At the end of the input a group left open raises
    [binascii.Error]. *)
Fixpoint a2b_base64 (l : list ascii) (quad_pos leftchar pads : N)
    (bin_data : bytes) : option bytes :=
  match l with
  | [] => if quad_pos =? 0 then Some bin_data else None
  | this_ch :: rest =>
      if Ascii.eqb this_ch "=" then
        if (2 <=? quad_pos) && (4 <=? quad_pos + (pads + 1)) then Some bin_data
        else
          a2b_base64 rest quad_pos leftchar
            (if 2 <=? quad_pos then pads + 1 else pads) bin_data
      else
        match index_of this_ch alphabet with
        | None => a2b_base64 rest quad_pos leftchar pads bin_data
        | Some v =>
            match quad_pos with
            | 0 => a2b_base64 rest 1 v 0 bin_data
            | 1 =>
                a2b_base64 rest 2 (N.land v 0x0f) 0
                  (bin_data
                     ++ [int2byte (N.lor (N.shiftl leftchar 2) (N.shiftr v 4))])
            | 2 =>
                a2b_base64 rest 3 (N.land v 0x03) 0
                  (bin_data
                     ++ [int2byte (N.lor (N.shiftl leftchar 4) (N.shiftr v 2))])
            | _ =>
                a2b_base64 rest 0 0 0
                  (bin_data ++ [int2byte (N.lor (N.shiftl leftchar 6) v)])
            end
        end
  end.

(** A [str] argument is encoded as ASCII first, which raises on a
    character above 127. *)
Definition b64decode (s : string) : option bytes :=
  let l := list_ascii_of_string s in
  if forallb (fun c => N_of_ascii c <? 128) l then a2b_base64 l 0 0 0 []
  else None.

(** A request with [n] empty resource entries is [0a 00] repeated [n]
    times on the wire. *)
Fixpoint parse (b : bytes) : option ExportMetricsServiceRequest.t :=
  match b with
  | [] => Some (ExportMetricsServiceRequest.mk [])
  | x0a :: x00 :: rest =>
      request ← parse rest;
      Some (ExportMetricsServiceRequest.mk
              (ResourceMetrics.mk [] []
                 :: ExportMetricsServiceRequest.resource_metrics request))
  | _ => None
  end.

Definition serialize (request : ExportMetricsServiceRequest.t) : bytes :=
  flat_map (fun _ => [x0a; x00])
           (ExportMetricsServiceRequest.resource_metrics request).

(** A clock stopped at 2024-01-01T00:00:00.25Z. *)
Definition clock (_ : nat) : Q := (6816268801 # 4)%Q.

(** A complete configuration, and one without the attribute key. *)
Definition environ : gmap string string :=
  {[ "TARGET_FUNCTION_NAMES" := "f1, f2"; "ATTRIBUTE_KEY" := "env";
     "ATTRIBUTE_VALUE" := "prod" ]}.

Definition environ_without_key : gmap string string :=
  {[ "TARGET_FUNCTION_NAMES" := "f1, f2"; "ATTRIBUTE_VALUE" := "prod" ]}.

(** A gauge metric with one data point labelled with a function name, a
    scope and a request around a list of metrics. *)
Definition gauge (function_name : string) : Metric.t :=
  Metric.mk "aws.lambda.invocations" EmptyString "1"
    (double_gauge
       (Points.mk
          [DataPoint.mk [StringKeyValue.mk "FunctionName" function_name] []] [])).

Definition scope (metrics : list Metric.t) : InstrumentationLibraryMetrics.t :=
  InstrumentationLibraryMetrics.mk [] metrics.

Definition request (metrics : list Metric.t) : ExportMetricsServiceRequest.t :=
  ExportMetricsServiceRequest.mk [ResourceMetrics.mk [] [scope metrics]].

(** Records of an event: [AgoA] is the stream of one request with one
    empty resource entry, the empty string the stream of no request, and
    [AKwCBw=] lacks a pad, for which [base64.b64decode] raises. *)
Definition record (record_id data : string) : InputRecord :=
  {[ "recordId" := record_id; "data" := data ]}.

Definition records : list InputRecord :=
  [record "r1" "AgoA"; record "r2" "AKwCBw="; record "r3" EmptyString].

Definition record_without_data : InputRecord := {[ "recordId" := "r4" ]}.
Definition record_without_identifier : InputRecord := {[ "data" := "AgoA" ]}.
End Concrete.

(** The handler on the concrete collaborators. *)
Abbreviation concrete_handler cfg :=
  (handler Concrete.clock cfg Concrete.parse Concrete.serialize
           Concrete.b64decode Concrete.b64encode).

(** ** Vocabulary of the statements about streams *)

(** The high bit of a byte of a varint: another byte follows. *)
Definition continuation (b : byte) : bool :=
  negb (N.land (byte_val b) 0x80 =? 0).

(** The value that the groups of seven bits of [p] spell, least significant
    group first. *)
Fixpoint varint_raw (p : bytes) : N :=
  match p with
  | [] => 0
  | b :: p' => N.lor (N.land (byte_val b) 0x7f) (N.shiftl (varint_raw p') 7)
  end.

Definition varint_value (p : bytes) : N := N.land (varint_raw p) (N.ones 32).

(** A length prefix that the reader accepts: at most nine bytes with the
    high bit, then one without. *)
Definition complete_prefix (p : bytes) : Prop :=
  exists init last,
    p = init ++ [last] /\ Forall (fun b => continuation b = true) init
    /\ continuation last = false /\ (length init <= 9)%nat.

(** A length prefix cut short by the end of the buffer. *)
Definition truncated_prefix (t : bytes) : Prop :=
  t <> [] /\ Forall (fun b => continuation b = true) t /\ (length t <= 9)%nat.

(** Ten bytes in a row that announce another byte. *)
Definition overlong_prefix (t : bytes) : Prop :=
  exists init rest,
    t = init ++ rest /\ length init = 10%nat
    /\ Forall (fun b => continuation b = true) init.

Section FramingVocabulary.
Context {Msg : Type}.
Variable ParseFromString : bytes -> option Msg.

(** A run of complete frames: a length prefix, then as many bytes as it
    says, which the message parser accepts. *)
Inductive Frames : bytes -> list Msg -> Prop :=
| Frames_nil : Frames [] []
| Frames_cons p body m rest ms :
    complete_prefix p -> len body = varint_value p ->
    ParseFromString body = Some m -> Frames rest ms ->
    Frames (p ++ body ++ rest) (m :: ms).

(** What the reader makes of the bytes after the last complete frame. *)
Inductive Tail : bytes -> outcome (list Msg) -> Prop :=
| Tail_end : Tail [] (Ok [])
| Tail_short p body m :
    complete_prefix p -> len body < varint_value p ->
    ParseFromString body = Some m -> Tail (p ++ body) (Ok [m])
| Tail_truncated t : truncated_prefix t -> Tail t (Raise IndexError)
| Tail_overlong t : overlong_prefix t -> Tail t (Raise DecodeError)
| Tail_rejected p body rest :
    complete_prefix p ->
    len body = N.min (varint_value p) (len (body ++ rest)) ->
    ParseFromString body = None -> Tail (p ++ body ++ rest) (Raise DecodeError).

Definition extend (messages : list Msg) (r : outcome (list Msg))
  : outcome (list Msg) :=
  match r with Ok l => Ok (messages ++ l) | Raise e => Raise e end.
End FramingVocabulary.

(** A sequence of messages is well formed for a codec when the parser reads
    each message back from its own serialization and the serialization is
    short enough for a 32-bit length prefix. *)
Definition well_formed {Msg} (ParseFromString : bytes -> option Msg)
    (SerializeToString : Msg -> bytes) (requests : list Msg) : Prop :=
  Forall (fun r => ParseFromString (SerializeToString r) = Some r
                   /\ len (SerializeToString r) < 2 ^ 32) requests.

(** ** Vocabulary of the statements about the pass *)

(** The labels that the scan of a list of metrics reads, in the order in
    which it reads them. *)
Definition metrics_labels (metrics : list Metric.t) : list StringKeyValue.t :=
  concat (concat (Metric.data_points_labels <$> metrics)).

Definition scope_labels (ilm : InstrumentationLibraryMetrics.t)
  : list StringKeyValue.t :=
  metrics_labels (InstrumentationLibraryMetrics.metrics ilm).

(** The number of data points of a scope, across its metrics, that carry
    the label [FunctionName = v]. *)
Definition points_carrying (v : string) (ilm : InstrumentationLibraryMetrics.t)
  : nat :=
  length
    (filter (fun dp_labels => StringKeyValue.mk FUNCTION_NAME_LABEL_KEY v ∈ dp_labels)
       (concat (Metric.data_points_labels
                  <$> InstrumentationLibraryMetrics.metrics ilm))).

(** The function name that a synthetic metric stands for: the value of the
    third label of its single data point. *)
Definition function_label (metric : Metric.t) : option string :=
  match Metric.data metric with
  | double_summary (DoubleSummary.mk [data_point]) =>
      StringKeyValue.value <$> DoubleSummaryDataPoint.labels data_point !! 2%nat
  | _ => None
  end.

(** The values that the scan of [labels] matches, in the order of their
    first occurrence, [seen] being the values processed before. *)
Fixpoint first_matches (cfg : Config) (seen : gset string)
    (labels : list StringKeyValue.t) : list string :=
  match labels with
  | [] => []
  | label :: labels =>
      if bool_decide (StringKeyValue.key label = FUNCTION_NAME_LABEL_KEY)
         && bool_decide (StringKeyValue.value label ∈ TARGET_FUNCTION_NAMES cfg)
         && bool_decide (StringKeyValue.value label ∉ seen)
      then StringKeyValue.value label
             :: first_matches cfg (seen ∪ {[StringKeyValue.value label]}) labels
      else first_matches cfg seen labels
  end.

(** The metrics that the factory builds for [vs], one clock reading each,
    starting at [tick]. *)
Definition summaries (time_time : nat -> Q) (custom_attrs : list (string * string))
    (vs : list string) (tick : nat) : list Metric.t :=
  imap (fun i v =>
          (create_custom_summary_metric time_time v custom_attrs (tick + i)).1) vs.

(** A relation between the scopes of two lists of requests, position by
    position, the rest of the tree being the same. *)
Definition scopes_related
    (R : InstrumentationLibraryMetrics.t -> InstrumentationLibraryMetrics.t -> Prop)
    (requests requests' : list ExportMetricsServiceRequest.t) : Prop :=
  Forall2
    (fun request request' =>
       Forall2
         (fun rm rm' =>
            ResourceMetrics.resource rm' = ResourceMetrics.resource rm
            /\ Forall2 R (ResourceMetrics.instrumentation_library_metrics rm)
                         (ResourceMetrics.instrumentation_library_metrics rm'))
         (ExportMetricsServiceRequest.resource_metrics request)
         (ExportMetricsServiceRequest.resource_metrics request'))
    requests requests'.

(** What the pass makes of a scope [ilm]: the metrics it had, followed by
    one synthetic metric for each value of [vs], the target values that
    label a data point of the scope, each once. *)
Definition scope_augmented (time_time : nat -> Q) (cfg : Config)
    (ilm ilm' : InstrumentationLibraryMetrics.t) : Prop :=
  exists (vs : list string) (tick : nat),
    let appended := summaries time_time (custom_attrs_dict cfg) vs tick in
    NoDup vs
    /\ (forall v, v ∈ vs <->
                  (v ∈ TARGET_FUNCTION_NAMES cfg /\ (0 < points_carrying v ilm)%nat))
    /\ InstrumentationLibraryMetrics.metrics ilm'
       = InstrumentationLibraryMetrics.metrics ilm ++ appended
    /\ (forall v,
          length (filter (fun metric => function_label metric = Some v) appended)
          = if bool_decide (v ∈ TARGET_FUNCTION_NAMES cfg
                            /\ (0 < points_carrying v ilm)%nat)
            then 1%nat else 0%nat).

(** What the pass leaves alone in a scope: the instrumentation library, and
    the metrics that were there, each at its position; what comes after them
    are summary metrics of the fixed name. *)
Definition scope_extended (ilm ilm' : InstrumentationLibraryMetrics.t) : Prop :=
  InstrumentationLibraryMetrics.instrumentation_library ilm'
  = InstrumentationLibraryMetrics.instrumentation_library ilm
  /\ (forall i metric,
        InstrumentationLibraryMetrics.metrics ilm !! i = Some metric ->
        InstrumentationLibraryMetrics.metrics ilm' !! i = Some metric)
  /\ exists appended,
       InstrumentationLibraryMetrics.metrics ilm'
       = InstrumentationLibraryMetrics.metrics ilm ++ appended
       /\ Forall (fun metric =>
                    Metric.name metric = "amazonaws.com/AWS/Lambda/Custom"
                    /\ Metric.WhichOneof metric = Some "double_summary")
                 appended.

(** What the pass appends to a scope is fixed by the scan of the metrics
    the scope had before: with the configuration complete, one synthetic
    metric for each target value among the labels of those metrics, in the
    order of first occurrence, each once, and each a value that labels a
    data point of the scope as it was; with the configuration incomplete,
    nothing.  A metric that the pass appends takes no part in the scan. *)
Definition appended_after_scan (time_time : nat -> Q) (cfg : Config)
    (ilm ilm' : InstrumentationLibraryMetrics.t) : Prop :=
  exists tick : nat,
    let vs :=
      if all_set cfg then first_matches cfg ∅ (scope_labels ilm) else [] in
    InstrumentationLibraryMetrics.metrics ilm'
    = InstrumentationLibraryMetrics.metrics ilm
        ++ summaries time_time (custom_attrs_dict cfg) vs tick
    /\ NoDup vs
    /\ (forall v, v ∈ vs <->
                  (all_set cfg = true /\ v ∈ TARGET_FUNCTION_NAMES cfg
                   /\ (0 < points_carrying v ilm)%nat))
    /\ Forall (fun metric =>
                 exists v, function_label metric = Some v /\ v ∈ vs)
              (summaries time_time (custom_attrs_dict cfg) vs tick).

(** ** Vocabulary of the statements about the handler *)

(** A record as the invocation boundary delivers it: an identifier and a
    payload. *)
Definition shaped (record : InputRecord) : Prop :=
  is_Some (record !! "recordId") /\ is_Some (record !! "data").

Section PipelineVocabulary.
Variable time_time : nat -> Q.
Variable cfg : Config.
Variable ParseFromString : bytes -> option ExportMetricsServiceRequest.t.
Variable SerializeToString : ExportMetricsServiceRequest.t -> bytes.
Variable b64decode : string -> option bytes.
Variable b64encode : bytes -> string.

(** The requests that the payload of a record decodes to, or the exception
    that the decoding raises. *)
Definition decoded (record : InputRecord)
  : outcome (list ExportMetricsServiceRequest.t) :=
  match record !! "data" with
  | None => Raise KeyError
  | Some data =>
      match b64decode data with
      | None => Raise BinasciiError
      | Some payload_bytes => parse_delimited_stream ParseFromString payload_bytes
      end
  end.

(** The re-encoding of a list of requests as the data of an output
    record. *)
Definition encoded (requests : list ExportMetricsServiceRequest.t) : string :=
  b64encode (serialize_requests_to_delimited_stream SerializeToString requests).

(** The output record for a shaped record, and the clock after it. *)
Definition answer (record : InputRecord) (tick : nat) : OutputRecord.t * nat :=
  let record_id := default EmptyString (record !! "recordId") in
  match decoded record with
  | Ok requests =>
      let '(requests, tick) :=
        add_custom_summary_metric time_time cfg requests tick in
      (OutputRecord.mk record_id "Ok" (encoded requests), tick)
  | Raise _ =>
      (OutputRecord.mk record_id "ProcessingFailed"
         (default EmptyString (record !! "data")), tick)
  end.

(** The answer [o] is the one that the handler owes to [record]. *)
Definition answers_record (record : InputRecord) (o : OutputRecord.t) : Prop :=
  record !! "recordId" = Some (OutputRecord.recordId o)
  /\ match decoded record with
     | Raise _ =>
         OutputRecord.result o = "ProcessingFailed"
         /\ record !! "data" = Some (OutputRecord.data o)
     | Ok _ => OutputRecord.result o = "Ok"
     end.
End PipelineVocabulary.

(** ** Vocabulary of the statements about the configuration *)

Definition chars (s : string) : list ascii := list_ascii_of_string s.

(** [sep.join(pieces)] *)
Fixpoint join (sep : ascii) (pieces : list string) : string :=
  match pieces with
  | [] => EmptyString
  | [piece] => piece
  | piece :: pieces => String.append piece (String sep (join sep pieces))
  end.

(** ** Vocabulary of the further properties *)

(** A property of every scope of a list of requests. *)
Definition all_scopes (P : InstrumentationLibraryMetrics.t -> Prop)
    (requests : list ExportMetricsServiceRequest.t) : Prop :=
  Forall
    (fun request =>
       Forall
         (fun rm => Forall P (ResourceMetrics.instrumentation_library_metrics rm))
         (ExportMetricsServiceRequest.resource_metrics request))
    requests.

(** The number of metrics of a list of requests, all scopes together. *)
Definition total_metrics (requests : list ExportMetricsServiceRequest.t) : nat :=
  sum_list_with
    (fun request =>
       sum_list_with
         (fun rm =>
            sum_list_with
              (fun ilm => length (InstrumentationLibraryMetrics.metrics ilm))
              (ResourceMetrics.instrumentation_library_metrics rm))
         (ExportMetricsServiceRequest.resource_metrics request))
    requests.

(** The values of the labels of [labels] that name a target function, in
    the order of the labels. *)
Definition candidates (cfg : Config) (labels : list StringKeyValue.t)
  : list string :=
  StringKeyValue.value
  <$> filter (fun label =>
                StringKeyValue.key label = FUNCTION_NAME_LABEL_KEY
                /\ StringKeyValue.value label ∈ TARGET_FUNCTION_NAMES cfg)
             labels.

(** The elements of a list, each once, in the order of their first
    occurrence. *)
Definition first_occurrences (l : list string) : list string :=
  reverse (remove_dups (reverse l)).

(** * Properties *)

(** ** Bytes and varints *)

Lemma byte_val_int2byte n : byte_val (int2byte n) = N.land n 0xff.
Proof.
  unfold byte_val, int2byte.
  change 0xff with (N.ones 8). rewrite N.land_ones. change (2 ^ 8) with 256.
  destruct (Byte.of_N (n mod 256)) as [b|] eqn:E.
  - by apply Byte.to_of_N.
  - apply Byte.of_N_None_iff in E.
    pose proof (N.mod_upper_bound n 256). lia.
Qed.

Lemma DecodeVarint_loop_complete mask init last rest pos result shift :
  Forall (fun b => continuation b = true) init ->
  continuation last = false ->
  shift + 7 * len init < 64 ->
  DecodeVarint_loop mask (init ++ last :: rest) pos result shift
  = Ok (N.land (N.lor result (N.shiftl (varint_raw (init ++ [last])) shift)) mask,
        pos + len init + 1).
Proof.
  intros Hinit Hlast. revert pos result shift.
  induction Hinit as [|b init Hb _ IH]; intros pos result shift Hshift; simpl.
  - unfold continuation in Hlast. apply negb_false_iff in Hlast. rewrite Hlast.
    rewrite N.shiftl_0_l, N.lor_0_r. do 2 f_equal. unfold len. simpl. lia.
  - unfold continuation in Hb. apply negb_true_iff in Hb. rewrite Hb.
    unfold len in *. simpl length in *.
    destruct (64 <=? shift + 7) eqn:E; [apply N.leb_le in E; lia|].
    rewrite IH by lia. do 2 f_equal; [|lia].
    f_equal. rewrite N.shiftl_lor, N.shiftl_shiftl, N.lor_assoc.
    by rewrite (N.add_comm 7 shift).
Qed.

Lemma DecodeVarint_loop_truncated mask t pos result shift :
  Forall (fun b => continuation b = true) t ->
  shift + 7 * len t < 64 ->
  DecodeVarint_loop mask t pos result shift = Raise IndexError.
Proof.
  intros Ht. revert pos result shift.
  induction Ht as [|b t Hb _ IH]; intros pos result shift Hshift; simpl; [done|].
  unfold continuation in Hb. apply negb_true_iff in Hb. rewrite Hb.
  unfold len in *. simpl length in *.
  destruct (64 <=? shift + 7) eqn:E; [apply N.leb_le in E; lia|].
  apply IH. lia.
Qed.

Lemma DecodeVarint_loop_overlong mask init rest pos result shift :
  Forall (fun b => continuation b = true) init ->
  shift < 64 -> 64 <= shift + 7 * len init ->
  DecodeVarint_loop mask (init ++ rest) pos result shift = Raise DecodeError.
Proof.
  intros Hinit. revert pos result shift.
  induction Hinit as [|b init Hb _ IH]; intros pos result shift Hlt Hge.
  - unfold len in Hge. simpl in Hge. lia.
  - simpl. unfold continuation in Hb. apply negb_true_iff in Hb. rewrite Hb.
    destruct (64 <=? shift + 7) eqn:E; [done|]. apply N.leb_gt in E.
    apply IH; [done|]. unfold len in *. simpl length in Hge. lia.
Qed.

(** Every buffer starts in exactly one of four ways. *)
Lemma prefix_cases (buf : bytes) :
  buf = [] \/ truncated_prefix buf \/ overlong_prefix buf
  \/ exists p rest, buf = p ++ rest /\ complete_prefix p.
Proof.
  assert (G : forall n buf, (n <= 10)%nat ->
    (Forall (fun b => continuation b = true) buf /\ (length buf < n)%nat)
    \/ (exists init rest, buf = init ++ rest /\ length init = n
          /\ Forall (fun b => continuation b = true) init)
    \/ (exists init last rest, buf = init ++ last :: rest
          /\ Forall (fun b => continuation b = true) init
          /\ continuation last = false /\ (length init < n)%nat)).
  { clear buf. induction n as [|n IH]; intros buf Hn.
    - right. left. exists [], buf. by repeat split.
    - destruct buf as [|b buf].
      + left. split; [constructor | simpl; lia].
      + destruct (continuation b) eqn:Eb.
        * destruct (IH buf ltac:(lia)) as [[H1 H2]|[(i & r & -> & H1 & H2)|(i & l & r & -> & H1 & H2 & H3)]].
          -- left. split; [by constructor | simpl; lia].
          -- right. left. exists (b :: i), r. repeat split; [simpl; lia | by constructor].
          -- right. right. exists (b :: i), l, r. repeat split; [by constructor | done | simpl; lia].
        * right. right. exists [], b, buf. repeat split; [constructor | done | simpl; lia]. }
  destruct buf as [|b0 buf0]; [by left|]. right.
  destruct (G 10%nat (b0 :: buf0) ltac:(lia)) as [[H1 H2]|[(i & r & E & H1 & H2)|(i & l & r & E & H1 & H2 & H3)]].
  - left. repeat split; [done | done | lia].
  - right. left. by exists i, r.
  - right. right. exists (i ++ [l]), r. split; [by rewrite <- app_assoc|].
    exists i, l. repeat split; [done | done | lia].
Qed.

Lemma split_low7 value :
  N.lor (N.land value 0x7f) (N.shiftl (N.shiftr value 7) 7) = value.
Proof.
  change 0x7f with (N.ones 7).
  rewrite <- N.ldiff_ones_r, N.lor_comm. apply N.lor_ldiff_and.
Qed.

Lemma EncodeVarint_loop_spec bits value :
  N.land bits 0x7f = bits ->
  exists init last,
    EncodeVarint_loop bits value = init ++ [last]
    /\ Forall (fun b => continuation b = true) init
    /\ continuation last = false
    /\ varint_raw (init ++ [last]) = N.lor bits (N.shiftl value 7)
    /\ forall k, value < 2 ^ (7 * k) -> len init <= k.
Proof.
  funelim (EncodeVarint_loop bits value); intros Hbits.
  - subst value. exists [], (int2byte bits). simpl.
    assert (Hlow : N.land (byte_val (int2byte bits)) 0x7f = bits).
    { rewrite byte_val_int2byte, <- N.land_assoc. exact Hbits. }
    repeat split.
    + constructor.
    + unfold continuation. rewrite byte_val_int2byte, <- N.land_assoc.
      change (N.land 255 128) with 128. rewrite <- Hbits, <- N.land_assoc.
      change (N.land 127 128) with 0. by rewrite N.land_0_r.
    + by rewrite Hlow.
    + intros k _. unfold len. simpl. lia.
  - destruct H as (init & last & E & Hinit & Hlast & Hraw & Hlen).
    { rewrite <- N.land_assoc. reflexivity. }
    exists (int2byte (N.lor 0x80 bits) :: init), last.
    assert (Hb : byte_val (int2byte (N.lor 128 bits)) = N.lor 128 bits).
    { rewrite byte_val_int2byte, N.land_lor_distr_l. change (N.land 128 255) with 128.
      f_equal. rewrite <- Hbits, <- N.land_assoc. reflexivity. }
    repeat split.
    + by rewrite E.
    + constructor; [|done]. unfold continuation. rewrite Hb.
      rewrite N.land_lor_distr_l. change (N.land 128 128) with 128.
      rewrite <- Hbits, <- N.land_assoc.
      change (N.land 127 128) with 0. by rewrite N.land_0_r.
    + done.
    + simpl. rewrite Hraw, Hb, split_low7, N.land_lor_distr_l.
      change (N.land 128 127) with 0. by rewrite N.lor_0_l, Hbits.
    + intros k Hk. unfold len in *. simpl length.
      destruct (N.eq_dec k 0) as [->|Hk0]; [simpl in Hk; lia|].
      specialize (Hlen (k - 1)).
      assert (N.shiftr value 7 < 2 ^ (7 * (k - 1))); [|lia].
      rewrite N.shiftr_div_pow2. apply N.Div0.div_lt_upper_bound.
      rewrite <- N.pow_add_r. by replace (7 + 7 * (k - 1)) with (7 * k) by lia.
Qed.

Lemma EncodeVarint_complete value :
  value < 2 ^ 64 ->
  complete_prefix (EncodeVarint value) /\ varint_raw (EncodeVarint value) = value.
Proof.
  intros Hv. unfold EncodeVarint.
  destruct (EncodeVarint_loop_spec (N.land value 0x7f) (N.shiftr value 7))
    as (init & last & E & Hinit & Hlast & Hraw & Hlen).
  { rewrite <- N.land_assoc. reflexivity. }
  rewrite E, Hraw, split_low7. split; [|done].
  exists init, last. repeat split; [done..|].
  assert (len init <= 9); [|unfold len in *; lia].
  apply Hlen. rewrite N.shiftr_div_pow2. apply N.Div0.div_lt_upper_bound.
  rewrite <- N.pow_add_r. eapply N.lt_le_trans; [exact Hv|].
  apply N.pow_le_mono_r; lia.
Qed.

Lemma EncodeVarint_value value :
  value < 2 ^ 32 -> varint_value (EncodeVarint value) = value.
Proof.
  intros Hv. unfold varint_value.
  destruct (EncodeVarint_complete value) as [_ ->].
  - eapply N.lt_le_trans; [exact Hv|]. apply N.pow_le_mono_r; lia.
  - rewrite N.land_ones. by apply N.mod_small.
Qed.

(** ** The frame reader *)

Section FramingFacts.
Context {Msg : Type}.
Variable ParseFromString : bytes -> option Msg.

Lemma parse_loop_eq data position messages :
  parse_loop ParseFromString data position messages =
  if position <? len data then
    match DecodeVarint32 data position with
    | Raise e => Raise e
    | Ok (msg_len, new_position) =>
        match ParseFromString (slice data new_position (new_position + msg_len)) with
        | None => Raise DecodeError
        | Some request =>
            parse_loop ParseFromString data (new_position + msg_len)
                       (messages ++ [request])
        end
    end
  else Ok messages.
Proof.
  funelim (parse_loop ParseFromString data position messages).
  all: destruct (N.ltb_spec position (len data)); try lia; try done.
  all: repeat match goal with
         | H : DecodeVarint32 _ _ = _ |- _ => rewrite H
         | H : ParseFromString _ = _ |- _ => rewrite H
         end; done.
Qed.

Lemma len_app {A} (a b : list A) : len (a ++ b) = len a + len b.
Proof. unfold len. rewrite length_app. lia. Qed.

Lemma DecodeVarint32_at pre buf :
  DecodeVarint32 (pre ++ buf) (len pre)
  = DecodeVarint_loop (N.ones 32) buf (len pre) 0 0.
Proof.
  unfold DecodeVarint32, len. by rewrite Nat2N.id, drop_app_length.
Qed.

Lemma slice_at {A} (pre rest : list A) n :
  slice (pre ++ rest) (len pre) (len pre + n) = take (N.to_nat n) rest.
Proof.
  unfold slice. rewrite len_app.
  replace (N.to_nat (len pre)) with (length pre) by (unfold len; lia).
  rewrite drop_app_length.
  destruct (N.le_ge_cases n (len rest)) as [Hn|Hn].
  - f_equal. lia.
  - replace (N.to_nat (N.min (len pre + n) (len pre + len rest) - len pre))
      with (length rest) by (unfold len in *; lia).
    rewrite take_ge by lia. rewrite take_ge; [done|unfold len in *; lia].
Qed.

Lemma parse_loop_past data position messages :
  len data <= position ->
  parse_loop ParseFromString data position messages = Ok messages.
Proof.
  intros H. rewrite parse_loop_eq.
  destruct (N.ltb_spec position (len data)); [lia|done].
Qed.

Lemma complete_prefix_len p : complete_prefix p -> 0 < len p.
Proof.
  intros (init & last & -> & _). rewrite len_app. unfold len. simpl. lia.
Qed.

Lemma DecodeVarint32_complete pre p rest :
  complete_prefix p ->
  DecodeVarint32 (pre ++ p ++ rest) (len pre)
  = Ok (varint_value p, len pre + len p).
Proof.
  intros (init & last & -> & Hinit & Hlast & Hlen).
  rewrite DecodeVarint32_at, <- app_assoc. simpl.
  rewrite DecodeVarint_loop_complete by (try done; unfold len; lia).
  rewrite N.shiftl_0_r, N.lor_0_l, len_app. unfold varint_value.
  do 2 f_equal. unfold len. simpl. lia.
Qed.

(** One turn of the loop at a complete length prefix. *)
Lemma parse_loop_complete pre p rest messages :
  complete_prefix p ->
  parse_loop ParseFromString (pre ++ p ++ rest) (len pre) messages =
  match ParseFromString (take (N.to_nat (varint_value p)) rest) with
  | None => Raise DecodeError
  | Some request =>
      parse_loop ParseFromString (pre ++ p ++ rest)
        (len pre + len p + varint_value p) (messages ++ [request])
  end.
Proof.
  intros Hp. rewrite parse_loop_eq.
  pose proof (complete_prefix_len p Hp) as Hpos.
  destruct (N.ltb_spec (len pre) (len (pre ++ p ++ rest))) as [_|Hge].
  2:{ rewrite !len_app in Hge. lia. }
  rewrite DecodeVarint32_complete by done.
  rewrite (app_assoc pre p rest), <- len_app, slice_at. done.
Qed.

Lemma parse_loop_no_prefix pre t messages e :
  t <> [] ->
  DecodeVarint_loop (N.ones 32) t (len pre) 0 0 = Raise e ->
  parse_loop ParseFromString (pre ++ t) (len pre) messages = Raise e.
Proof.
  intros Ht He. rewrite parse_loop_eq.
  destruct (N.ltb_spec (len pre) (len (pre ++ t))) as [_|Hge].
  - by rewrite DecodeVarint32_at, He.
  - rewrite len_app in Hge. destruct t; [done|]. unfold len in Hge. simpl in Hge. lia.
Qed.

Lemma parse_loop_tail pre tail r messages :
  Tail ParseFromString tail r ->
  parse_loop ParseFromString (pre ++ tail) (len pre) messages = extend messages r.
Proof.
  intros [|p body m Hp Hlen Hm|t (Hne & Ht & Hlen)|t (init & rest & -> & Hlen & Hinit)
         |p body rest Hp Hlen Hm]; simpl.
  - rewrite app_nil_r, parse_loop_past by lia. by rewrite app_nil_r.
  - rewrite parse_loop_complete by done.
    rewrite take_ge by (unfold len in Hlen; lia). rewrite Hm.
    apply parse_loop_past. rewrite !len_app. lia.
  - apply parse_loop_no_prefix; [done|].
    apply DecodeVarint_loop_truncated; [done|unfold len; lia].
  - apply parse_loop_no_prefix.
    + destruct init; [done|discriminate].
    + apply DecodeVarint_loop_overlong; [done|lia|unfold len; lia].
  - rewrite parse_loop_complete by done.
    replace (take (N.to_nat (varint_value p)) (body ++ rest)) with body; [by rewrite Hm|].
    rewrite len_app in Hlen. unfold len in Hlen.
    destruct (N.le_ge_cases (varint_value p) (len (body ++ rest))) as [H|H];
      rewrite len_app in H; unfold len in H.
    + replace (N.to_nat (varint_value p)) with (length body) by lia.
      by rewrite take_app_length.
    + assert (length rest = 0%nat) as Hr by lia.
      apply nil_length_inv in Hr. subst rest. rewrite app_nil_r.
      rewrite take_ge; [done|lia].
Qed.

(** The reader on a run of complete frames followed by a tail. *)
Lemma parse_loop_frames pre fr ms tail r messages :
  Frames ParseFromString fr ms -> Tail ParseFromString tail r ->
  parse_loop ParseFromString (pre ++ fr ++ tail) (len pre) messages
  = extend (messages ++ ms) r.
Proof.
  intros Hfr Htail. revert pre messages.
  induction Hfr as [|p body m rest ms Hp Hlen Hm _ IH]; intros pre messages.
  - simpl. rewrite app_nil_r. by apply parse_loop_tail.
  - rewrite <- !app_assoc. rewrite parse_loop_complete by done.
    replace (N.to_nat (varint_value p)) with (length body)
      by (unfold len in Hlen; lia).
    rewrite take_app_length, Hm.
    specialize (IH (pre ++ p ++ body) (messages ++ [m])).
    rewrite <- !app_assoc in IH. rewrite !len_app in IH.
    rewrite N.add_assoc, Hlen in IH. exact IH.
Qed.

(** Every buffer is a run of complete frames followed by a tail. *)
Lemma frames_tail_exist (buf : bytes) :
  exists fr ms tail r, buf = fr ++ tail /\ Frames ParseFromString fr ms /\ Tail ParseFromString tail r.
Proof.
  remember (length buf) as n eqn:Hn. revert buf Hn.
  induction n as [n IH] using lt_wf_ind. intros buf ->.
  destruct (prefix_cases buf) as [->|[Ht|[Ho|(p & rest & -> & Hp)]]].
  - exists [], [], [], (Ok []). repeat split; constructor.
  - exists [], [], buf, (Raise IndexError). repeat split; by constructor.
  - exists [], [], buf, (Raise DecodeError). repeat split; [constructor|by constructor].
  - set (k := N.to_nat (varint_value p)).
    destruct (ParseFromString (take k rest)) as [m|] eqn:Hm.
    + destruct (N.le_gt_cases (varint_value p) (len rest)) as [Hle|Hgt].
      * destruct (IH (length (drop k rest))) with (buf := drop k rest)
          as (fr & ms & tail & r & E & Hfr & Htail); [|done|].
        { pose proof (complete_prefix_len p Hp).
          rewrite length_app, length_drop. unfold len in *. lia. }
        exists (p ++ take k rest ++ fr), (m :: ms), tail, r. repeat split; [|
          |done].
        -- rewrite <- !app_assoc. rewrite <- E. by rewrite take_drop.
        -- constructor; [done| |done|done].
           unfold len. rewrite length_take. unfold len in Hle. lia.
      * exists [], [], (p ++ rest), (Ok [m]). repeat split; [constructor|].
        rewrite take_ge in Hm by (unfold len in Hgt; lia).
        by constructor.
    + exists [], [], (p ++ rest), (Raise DecodeError). repeat split; [constructor|].
      rewrite <- (take_drop k rest) at 1.
      constructor; [done| |done].
      rewrite take_drop. unfold len. rewrite length_take. lia.
Qed.
End FramingFacts.

Lemma serialize_fold {Msg} (SerializeToString : Msg -> bytes) requests acc :
  fold_left
    (fun all_serialized request =>
       (all_serialized ++ EncodeVarint (len (SerializeToString request)))
         ++ SerializeToString request)
    requests acc
  = acc ++ serialize_requests_to_delimited_stream SerializeToString requests.
Proof.
  unfold serialize_requests_to_delimited_stream.
  revert acc. induction requests as [|r rs IH]; intros acc; simpl.
  - by rewrite app_nil_r.
  - rewrite IH. rewrite (IH (EncodeVarint _ ++ _)). by rewrite <- !app_assoc.
Qed.

Lemma serialize_cons {Msg} (SerializeToString : Msg -> bytes) request requests :
  serialize_requests_to_delimited_stream SerializeToString (request :: requests)
  = EncodeVarint (len (SerializeToString request))
      ++ SerializeToString request
      ++ serialize_requests_to_delimited_stream SerializeToString requests.
Proof.
  unfold serialize_requests_to_delimited_stream at 1. simpl.
  rewrite serialize_fold. by rewrite <- app_assoc.
Qed.

(** The stream written for [requests] is a run of complete frames, for any
    reader [parse] of the frames that knows what to make of each message as
    serialized. *)
Lemma serialize_frames {Msg Msg'} (SerializeToString : Msg -> bytes)
    (parse : bytes -> option Msg') (f : Msg -> Msg') requests :
  Forall (fun r => parse (SerializeToString r) = Some (f r)
                   /\ len (SerializeToString r) < 2 ^ 32) requests ->
  Frames parse (serialize_requests_to_delimited_stream SerializeToString requests)
         (f <$> requests).
Proof.
  induction 1 as [|r rs [Hr Hlen] _ IH].
  - constructor.
  - rewrite serialize_cons, fmap_cons.
    constructor; [|by rewrite EncodeVarint_value|done|done].
    apply EncodeVarint_complete.
    eapply N.lt_le_trans; [exact Hlen|]. apply N.pow_le_mono_r; lia.
Qed.

(** C3.  Decoding the stream written for a well-formed sequence of messages
    gives back the sequence, message by message and in order; and the frames
    that the reader cuts out of the stream are the serialized messages
    themselves, byte for byte. *)
Theorem stream_round_trip {Msg} (ParseFromString : bytes -> option Msg)
    (SerializeToString : Msg -> bytes) (requests : list Msg) :
  well_formed ParseFromString SerializeToString requests ->
  parse_delimited_stream ParseFromString
    (serialize_requests_to_delimited_stream SerializeToString requests)
  = Ok requests
  /\ parse_delimited_stream Some
       (serialize_requests_to_delimited_stream SerializeToString requests)
     = Ok (SerializeToString <$> requests).
Proof.
  intros Hwf. unfold parse_delimited_stream. split.
  - pose proof (serialize_frames SerializeToString ParseFromString id requests) as Hfr.
    rewrite list_fmap_id in Hfr.
    pose proof (parse_loop_frames ParseFromString [] _ _ [] (Ok []) []
                  (Hfr Hwf) (Tail_end _)) as H.
    simpl in H. by rewrite !app_nil_r in H.
  - assert (Hfr : Frames Some
      (serialize_requests_to_delimited_stream SerializeToString requests)
      (SerializeToString <$> requests)).
    { apply serialize_frames. eapply Forall_impl; [exact Hwf|]. by intros r [_ ?]. }
    pose proof (parse_loop_frames Some [] _ _ [] (Ok []) [] Hfr (Tail_end _)) as H.
    simpl in H. by rewrite !app_nil_r in H.
Qed.

(** C3 at a message of one byte, an empty one and one of 200 bytes, whose
    length prefix takes two bytes. *)
Lemma stream_round_trip_witness :
  let requests := [[x2a]; []; replicate 200 x07] in
  well_formed Some id requests
  /\ parse_delimited_stream Some
       (serialize_requests_to_delimited_stream id requests) = Ok requests.
Proof.
  split.
  - repeat constructor.
  - apply (stream_round_trip Some id [[x2a]; []; replicate 200 x07]).
    repeat constructor.
Defined.

(** C4 (as amended).  What the stream reader returns is decided by the way
    the buffer splits into a run of complete frames and a tail.  It raises
    exactly when the tail is a truncated length prefix ([IndexError]), a
    length prefix of ten continuation bytes, or a frame whose bytes the
    message parser rejects ([DecodeError]).  A declared length that exceeds
    the rest of the buffer is no error: the message is parsed from the bytes
    that are left.  The loop runs until the position is at or past the end,
    so no byte stays unread, and bytes after a complete frame are read as
    the next frame. *)
Theorem parse_delimited_stream_outcome {Msg}
    (ParseFromString : bytes -> option Msg) (data : bytes) :
  (forall r,
     parse_delimited_stream ParseFromString data = r <->
     exists fr ms tail r',
       data = fr ++ tail /\ Frames ParseFromString fr ms
       /\ Tail ParseFromString tail r' /\ r = extend ms r')
  /\ (parse_delimited_stream ParseFromString data = Raise IndexError <->
      exists fr ms tail,
        data = fr ++ tail /\ Frames ParseFromString fr ms /\ truncated_prefix tail)
  /\ (forall messages,
        parse_delimited_stream ParseFromString data = Ok messages <->
        Frames ParseFromString data messages
        \/ exists fr ms p body m,
             data = fr ++ p ++ body /\ Frames ParseFromString fr ms
             /\ complete_prefix p /\ len body < varint_value p
             /\ ParseFromString body = Some m /\ messages = ms ++ [m]).
Proof.
  assert (Hall : forall r,
     parse_delimited_stream ParseFromString data = r <->
     exists fr ms tail r',
       data = fr ++ tail /\ Frames ParseFromString fr ms
       /\ Tail ParseFromString tail r' /\ r = extend ms r').
  { intros r. unfold parse_delimited_stream. split.
    - intros <-. destruct (frames_tail_exist ParseFromString data)
        as (fr & ms & tail & r' & -> & Hfr & Htail).
      exists fr, ms, tail, r'. repeat split; [done..|].
      exact (parse_loop_frames ParseFromString [] fr ms tail r' [] Hfr Htail).
    - intros (fr & ms & tail & r' & -> & Hfr & Htail & ->).
      exact (parse_loop_frames ParseFromString [] fr ms tail r' [] Hfr Htail). }
  split; [exact Hall|]. split.
  - rewrite Hall. split.
    + intros (fr & ms & tail & r' & -> & Hfr & Htail & E).
      exists fr, ms, tail. split; [done|]. split; [done|].
      destruct Htail; simpl in E; try discriminate; done.
    + intros (fr & ms & tail & -> & Hfr & Ht).
      exists fr, ms, tail, (Raise IndexError).
      split; [done|]. split; [done|]. split; [by constructor|done].
  - intros messages. rewrite Hall. split.
    + intros (fr & ms & tail & r' & -> & Hfr & Htail & E).
      destruct Htail as [|p body m Hp Hlen Hm| | |]; simpl in E; try discriminate.
      * left. injection E as ->. by rewrite !app_nil_r.
      * right. injection E as ->. by exists fr, ms, p, body, m.
    + intros [Hfr|(fr & ms & p & body & m & -> & Hfr & Hp & Hlen & Hm & ->)].
      * exists data, messages, [], (Ok []). rewrite !app_nil_r. simpl.
        rewrite app_nil_r. repeat split; [done|constructor].
      * exists fr, ms, (p ++ body), (Ok [m]). repeat split; [done|by constructor].
Qed.

(** C4, the claim as it stands fails: the one-byte buffer [05] announces a
    message of five bytes and holds none of them, and the reader returns the
    message parsed from the empty slice instead of raising.  And a byte [00]
    left after a complete frame is no error: it is read as the frame of an
    empty message. *)
Lemma parse_delimited_stream_overrun_accepted :
  complete_prefix [x05] /\ varint_value [x05] = 5 /\ len (@nil byte) < 5
  /\ parse_delimited_stream Concrete.parse [x05]
     = Ok [ExportMetricsServiceRequest.mk []]
  /\ parse_delimited_stream Concrete.parse [x02; x0a; x00; x00]
     = Ok [ExportMetricsServiceRequest.mk [ResourceMetrics.mk [] []];
           ExportMetricsServiceRequest.mk []].
Proof.
  split; [|by vm_compute].
  exists [], x05. repeat split; [constructor | simpl; lia].
Qed.


(** ** The summary metric factory *)

(** [int] truncates towards zero. *)
Lemma int_truncates (x : Q) :
  (inject_Z (Z.abs (int x)) <= Qabs x)%Q
  /\ (Qabs x < inject_Z (Z.abs (int x)) + 1)%Q
  /\ (0 <= inject_Z (int x) * x)%Q.
Proof.
  destruct x as [n d]. unfold int, Qabs, Qle, Qlt. simpl.
  assert (Habs : Z.abs (n ÷ Z.pos d) = (Z.abs n / Z.pos d)%Z).
  { rewrite <- (Z.quot_abs n (Z.pos d)) by lia.
    rewrite (Z.abs_eq (Z.pos d)) by lia. apply Z.quot_div_nonneg; lia. }
  rewrite Habs.
  pose proof (Z.mul_div_le (Z.abs n) (Z.pos d) ltac:(lia)).
  pose proof (Z.mul_succ_div_gt (Z.abs n) (Z.pos d) ltac:(lia)).
  split; [lia|]. split; [lia|].
  destruct (Z.le_ge_cases 0 n) as [Hn|Hn].
  - pose proof (Z.mul_quot_le n (Z.pos d) Hn ltac:(lia)). nia.
  - pose proof (Z.mul_quot_ge n (Z.pos d) Hn ltac:(lia)). nia.
Qed.

Lemma labels_fold (custom_attrs : list (string * string)) labels :
  fold_left (fun labels '(key, value) => labels ++ [StringKeyValue.mk key value])
            custom_attrs labels
  = labels ++ ((fun '(key, value) => StringKeyValue.mk key value) <$> custom_attrs).
Proof.
  revert labels. induction custom_attrs as [|[k v] l IH]; intros labels; simpl.
  - by rewrite app_nil_r.
  - rewrite IH. by rewrite <- app_assoc.
Qed.

(** C2.  The metric that the factory builds: the fixed name and unit, the
    summary shape with a single data point of count 1 and sum 1.0, the two
    quantile pairs (0.0, 1.0) and (1.0, 1.0), both timestamps equal to the
    clock reading truncated to whole seconds and scaled to nanoseconds, and
    the labels Namespace, MetricName, the function name and then one label
    per custom attribute, in that order.  The clock is read once. *)
Theorem create_custom_summary_metric_shape (time_time : nat -> Q)
    (function_name : string) (custom_attrs : list (string * string)) (tick : nat) :
  let now := time_time tick in
  let seconds := int now in
  exists data_point,
    create_custom_summary_metric time_time function_name custom_attrs tick
    = (Metric.mk "amazonaws.com/AWS/Lambda/Custom" EmptyString "{Count}"
         (double_summary (DoubleSummary.mk [data_point])), S tick)
    /\ DoubleSummaryDataPoint.count data_point = 1%Z
    /\ DoubleSummaryDataPoint.sum data_point = 1%float
    /\ DoubleSummaryDataPoint.quantile_values data_point
       = [ValueAtQuantile.mk 0%float 1%float; ValueAtQuantile.mk 1%float 1%float]
    /\ DoubleSummaryDataPoint.start_time_unix_nano data_point
       = (seconds * 1000000000)%Z
    /\ DoubleSummaryDataPoint.time_unix_nano data_point
       = (seconds * 1000000000)%Z
    /\ ((inject_Z (Z.abs seconds) <= Qabs now)%Q
        /\ (Qabs now < inject_Z (Z.abs seconds) + 1)%Q
        /\ (0 <= inject_Z seconds * now)%Q)
    /\ DoubleSummaryDataPoint.labels data_point
       = [ StringKeyValue.mk "Namespace" "AWS/Lambda";
           StringKeyValue.mk "MetricName" "Custom";
           StringKeyValue.mk "FunctionName" function_name ]
         ++ ((fun '(key, value) => StringKeyValue.mk key value) <$> custom_attrs).
Proof.
  intros now seconds. unfold create_custom_summary_metric.
  eexists. split; [reflexivity|]. simpl.
  repeat (split; [reflexivity|]).
  split; [apply int_truncates|]. apply labels_fold.
Qed.

(** ** The augmentation pass *)

Section AugmentFacts.
Variable time_time : nat -> Q.
Variable cfg : Config.
Variable custom_attrs : list (string * string).

Lemma first_matches_spec labels seen v :
  v ∈ first_matches cfg seen labels <->
  ((v ∉ seen) /\ v ∈ TARGET_FUNCTION_NAMES cfg
   /\ StringKeyValue.mk FUNCTION_NAME_LABEL_KEY v ∈ labels).
Proof.
  revert seen. induction labels as [|[k w] labels IH]; intros seen; simpl.
  - split; [by intros ?%elem_of_nil|]. by intros (_ & _ & ?%elem_of_nil).
  - destruct (bool_decide (k = FUNCTION_NAME_LABEL_KEY)
              && bool_decide (w ∈ TARGET_FUNCTION_NAMES cfg)
              && bool_decide (w ∉ seen)) eqn:E.
    + apply andb_prop in E as [E Hseen]. apply andb_prop in E as [Hk Hw].
      apply bool_decide_eq_true in Hseen, Hk, Hw. subst k.
      rewrite elem_of_cons, IH, elem_of_cons. split.
      * intros [->|(Hv & Ht & Hl)]; [by auto|].
        split; [set_solver|]. auto.
      * intros (Hv & Ht & [[= ->]|Hl]); [by left|].
        destruct (decide (v = w)) as [->|Hne]; [by left|].
        right. split; [set_solver|]. auto.
    + rewrite IH, elem_of_cons. split; [by intros (? & ? & ?); auto|].
      intros (Hv & Ht & [[= <- <-]|Hl]); [|by auto].
      rewrite !bool_decide_eq_true_2 in E by done. done.
Qed.

Lemma first_matches_NoDup labels seen : NoDup (first_matches cfg seen labels).
Proof.
  revert seen. induction labels as [|[k w] labels IH]; intros seen; simpl.
  - constructor.
  - destruct (_ && _ && _); [|done]. constructor; [|done].
    rewrite first_matches_spec. set_solver.
Qed.

Lemma summaries_cons v vs tick :
  summaries time_time custom_attrs (v :: vs) tick
  = (create_custom_summary_metric time_time v custom_attrs tick).1
      :: summaries time_time custom_attrs vs (S tick).
Proof.
  unfold summaries. simpl. rewrite Nat.add_0_r. f_equal.
  apply imap_ext. intros i x _. simpl. by rewrite Nat.add_succ_r.
Qed.

(** The loop over the labels of a data point, started in any state. *)
Lemma scan_labels_spec labels processed_functions new_metrics_to_add tick :
  fold_left (scan_label time_time cfg custom_attrs) labels
            (processed_functions, new_metrics_to_add, tick)
  = let vs := first_matches cfg processed_functions labels in
    (processed_functions ∪ list_to_set vs,
     new_metrics_to_add ++ summaries time_time custom_attrs vs tick,
     (tick + length vs)%nat).
Proof.
  revert processed_functions new_metrics_to_add tick.
  induction labels as [|label labels IH]; intros seen new tick; simpl.
  - f_equal; [f_equal|lia]; [set_solver|by rewrite app_nil_r].
  - destruct (_ && _ && _) eqn:E; simpl.
    + rewrite IH. simpl. rewrite summaries_cons. simpl.
      f_equal; [f_equal|lia]; [set_solver|by rewrite <- app_assoc].
    + apply IH.
Qed.

Lemma fold_left_concat {A B} (f : A -> B -> A) (ls : list (list B)) a :
  fold_left (fun a l => fold_left f l a) ls a = fold_left f (concat ls) a.
Proof.
  revert a. induction ls as [|l ls IH]; intros a; simpl; [done|].
  by rewrite fold_left_app, IH.
Qed.

Lemma scan_metric_labels st metric :
  scan_metric time_time cfg custom_attrs st metric
  = fold_left (scan_label time_time cfg custom_attrs)
              (concat (Metric.data_points_labels metric)) st.
Proof.
  unfold scan_metric, Metric.WhichOneof, Metric.data_points_labels.
  destruct (Metric.data metric); try apply fold_left_concat. done.
Qed.

Lemma scan_metrics_labels metrics st :
  fold_left (scan_metric time_time cfg custom_attrs) metrics st
  = fold_left (scan_label time_time cfg custom_attrs) (metrics_labels metrics) st.
Proof.
  unfold metrics_labels. revert st.
  induction metrics as [|m metrics IH]; intros st; simpl; [done|].
  by rewrite concat_app, fold_left_app, IH, scan_metric_labels.
Qed.

(** What the pass does to one scope. *)
Lemma augment_scope_spec ilm tick :
  augment_scope time_time cfg custom_attrs ilm tick
  = let vs := first_matches cfg ∅ (scope_labels ilm) in
    (InstrumentationLibraryMetrics.mk
       (InstrumentationLibraryMetrics.instrumentation_library ilm)
       (InstrumentationLibraryMetrics.metrics ilm
          ++ summaries time_time custom_attrs vs tick),
     (tick + length vs)%nat).
Proof.
  unfold augment_scope. rewrite scan_metrics_labels, scan_labels_spec.
  fold (scope_labels ilm). simpl.
  destruct (first_matches cfg ∅ (scope_labels ilm)) as [|v vs]; simpl.
  - destruct ilm. simpl. by rewrite app_nil_r.
  - done.
Qed.

Lemma elem_of_concat {A} (x : A) (ls : list (list A)) :
  x ∈ concat ls <-> exists l, l ∈ ls /\ x ∈ l.
Proof.
  induction ls as [|l ls IH]; simpl.
  - split; [by intros ?%elem_of_nil|]. by intros (? & ?%elem_of_nil & _).
  - rewrite elem_of_app, IH. split.
    + intros [H|(l' & H1 & H2)]; [exists l|exists l']; split; try done;
        [by left|by right].
    + intros (l' & [->|H1]%elem_of_cons & H2); [by left|right; by exists l'].
Qed.

Lemma points_carrying_pos v ilm :
  (0 < points_carrying v ilm)%nat
  <-> StringKeyValue.mk FUNCTION_NAME_LABEL_KEY v ∈ scope_labels ilm.
Proof.
  unfold points_carrying, scope_labels, metrics_labels.
  rewrite elem_of_concat. split.
  - intros H. destruct (filter _ _) as [|l ?] eqn:E; [simpl in H; lia|].
    assert (Hl : l ∈ filter
      (fun dp_labels => StringKeyValue.mk FUNCTION_NAME_LABEL_KEY v ∈ dp_labels)
      (concat (Metric.data_points_labels
                 <$> InstrumentationLibraryMetrics.metrics ilm))).
    { rewrite E. by left. }
    apply list_elem_of_filter in Hl as [? ?]. by exists l.
  - intros (l & Hl & Hv).
    assert (Hin : l ∈ filter
      (fun dp_labels => StringKeyValue.mk FUNCTION_NAME_LABEL_KEY v ∈ dp_labels)
      (concat (Metric.data_points_labels
                 <$> InstrumentationLibraryMetrics.metrics ilm))).
    { by apply list_elem_of_filter. }
    destruct (filter _ _); [by apply elem_of_nil in Hin|simpl; lia].
Qed.

Lemma function_label_summary v tick :
  function_label (create_custom_summary_metric time_time v custom_attrs tick).1
  = Some v.
Proof.
  unfold function_label, create_custom_summary_metric. simpl.
  by rewrite labels_fold.
Qed.

Lemma summaries_count v vs tick :
  NoDup vs ->
  length (filter (fun metric => function_label metric = Some v)
                 (summaries time_time custom_attrs vs tick))
  = if bool_decide (v ∈ vs) then 1%nat else 0%nat.
Proof.
  intros Hnd. revert tick.
  induction Hnd as [|u vs Hu _ IH]; intros tick; [done|].
  rewrite summaries_cons, filter_cons, function_label_summary.
  destruct (decide (Some u = Some v)) as [[= ->]|Hne]; simpl.
  - rewrite IH. rewrite (bool_decide_eq_false_2 (v ∈ vs)) by done.
    rewrite bool_decide_eq_true_2; [done|by left].
  - rewrite IH. apply (f_equal (fun b : bool => if b then 1%nat else 0%nat)).
    apply bool_decide_ext. rewrite elem_of_cons. split; [by right|].
    intros [->|?]; [congruence|done].
Qed.

Lemma summaries_shape vs tick :
  Forall (fun metric =>
            Metric.name metric = "amazonaws.com/AWS/Lambda/Custom"
            /\ Metric.WhichOneof metric = Some "double_summary")
         (summaries time_time custom_attrs vs tick).
Proof.
  revert tick. induction vs as [|v vs IH]; intros tick; [constructor|].
  rewrite summaries_cons. constructor; [|apply IH]. done.
Qed.

Lemma for_each_Forall2 {A B} (body : A -> nat -> B * nat) (R : A -> B -> Prop) l tick :
  (forall x t, R x (body x t).1) -> Forall2 R l (for_each body l tick).1.
Proof.
  intros HR. revert tick. induction l as [|x l IH]; intros tick; simpl.
  - constructor.
  - specialize (HR x tick). destruct (body x tick) as [x' t1].
    specialize (IH t1). destruct (for_each body l t1) as [l' t2].
    by constructor.
Qed.

(** A property of the scopes holds across the whole pass as soon as the
    pass over one scope has it. *)
Lemma for_each_scopes_related R requests tick :
  (forall ilm t, R ilm (augment_scope time_time cfg custom_attrs ilm t).1) ->
  scopes_related R requests
    (for_each (augment_request time_time cfg custom_attrs) requests tick).1.
Proof.
  intros HR. apply for_each_Forall2. intros request t.
  unfold augment_request.
  pose proof (for_each_Forall2 (augment_resource time_time cfg custom_attrs)
    (fun rm rm' =>
       ResourceMetrics.resource rm' = ResourceMetrics.resource rm
       /\ Forall2 R (ResourceMetrics.instrumentation_library_metrics rm)
                    (ResourceMetrics.instrumentation_library_metrics rm'))
    (ExportMetricsServiceRequest.resource_metrics request) t) as H.
  destruct (for_each _ _ t) as [rms t']. simpl. apply H.
  intros rm t0. unfold augment_resource.
  pose proof (for_each_Forall2 (augment_scope time_time cfg custom_attrs) R
    (ResourceMetrics.instrumentation_library_metrics rm) t0 HR) as H'.
  destruct (for_each _ _ t0) as [ilms t1]. simpl. done.
Qed.
End AugmentFacts.

Lemma scopes_related_refl R requests :
  (forall ilm, R ilm ilm) -> scopes_related R requests requests.
Proof.
  intros HR. unfold scopes_related.
  apply Forall2_same_length_lookup. split; [done|].
  intros i x y Hx Hy. assert (x = y) as <- by congruence.
  apply Forall2_same_length_lookup. split; [done|].
  intros j rm rm' Hrm Hrm'. assert (rm = rm') as <- by congruence.
  split; [done|].
  apply Forall2_same_length_lookup. split; [done|].
  intros k a b Ha Hb. assert (a = b) as <- by congruence. apply HR.
Qed.

(** C1.  With the configuration complete, in every scope of
    every message the pass appends, after the metrics that were there,
    exactly one synthetic summary metric for each target value that labels at
    least one data point of the scope, however many data points and metrics
    carry it, and nothing for any other value.  The values are found among
    the metrics the scope had before the pass: what was appended is not
    scanned. *)
Theorem one_summary_per_function_per_scope (time_time : nat -> Q) (cfg : Config)
    (requests : list ExportMetricsServiceRequest.t) (tick : nat) :
  all_set cfg = true ->
  scopes_related (scope_augmented time_time cfg) requests
    (add_custom_summary_metric time_time cfg requests tick).1.
Proof.
  intros Hset. unfold add_custom_summary_metric. rewrite Hset. simpl.
  apply for_each_scopes_related. intros ilm t.
  rewrite augment_scope_spec. simpl.
  exists (first_matches cfg ∅ (scope_labels ilm)), t.
  assert (Hmem : forall v, v ∈ first_matches cfg ∅ (scope_labels ilm) <->
    (v ∈ TARGET_FUNCTION_NAMES cfg /\ (0 < points_carrying v ilm)%nat)).
  { intros v. rewrite first_matches_spec, points_carrying_pos. set_solver. }
  split; [apply first_matches_NoDup|]. split; [exact Hmem|]. split; [done|].
  intros v. rewrite summaries_count by apply first_matches_NoDup.
  apply (f_equal (fun b : bool => if b then 1%nat else 0%nat)).
  apply bool_decide_ext, Hmem.
Qed.

Lemma summaries_labelled time_time custom_attrs vs tick :
  Forall (fun metric => exists v, function_label metric = Some v /\ v ∈ vs)
         (summaries time_time custom_attrs vs tick).
Proof.
  revert tick. induction vs as [|u vs IH]; intros tick; [constructor|].
  rewrite summaries_cons. constructor.
  - exists u. split; [apply function_label_summary|by left].
  - eapply Forall_impl; [apply IH|]. intros metric (v & Hv & Hin).
    exists v. split; [done|by right].
Qed.

(** C6.  The pass changes nothing but the metric lists of the scopes, and
    those only by appending: the messages, their resources and scopes stay
    in number and order, every metric that was in a scope is still there at
    its position, and what follows are summary metrics of the fixed name.
    Reading and appending are apart: what is appended to a scope is fixed
    by the labels of the metrics the scope had before the pass, one summary
    for each target value found among them, and none for a value that
    labels no data point of the scope as it was. *)
Theorem pass_only_appends (time_time : nat -> Q) (cfg : Config)
    (requests : list ExportMetricsServiceRequest.t) (tick : nat) :
  scopes_related
    (fun ilm ilm' =>
       scope_extended ilm ilm' /\ appended_after_scan time_time cfg ilm ilm')
    requests
    (add_custom_summary_metric time_time cfg requests tick).1.
Proof.
  unfold add_custom_summary_metric, appended_after_scan.
  destruct (all_set cfg) eqn:Hset; simpl.
  - apply for_each_scopes_related. intros ilm t.
    rewrite augment_scope_spec. simpl. split.
    + split; [done|]. split.
      * intros i metric Hi. by apply lookup_app_l_Some.
      * eexists. split; [done|]. apply summaries_shape.
    + exists t. split; [done|]. split; [apply first_matches_NoDup|]. split.
      * intros v. rewrite first_matches_spec, points_carrying_pos. set_solver.
      * apply summaries_labelled.
  - apply scopes_related_refl. intros ilm. split.
    + split; [done|]. split; [done|]. exists []. by rewrite app_nil_r.
    + exists 0%nat. split; [by rewrite app_nil_r|]. split; [constructor|].
      split; [|constructor].
      intros v. split; [by intros ?%elem_of_nil|]. by intros [? _].
Qed.

(** The scenario of the specification: one gauge metric with a data point
    labelled [FunctionName=f1], the target set [{f1}] and the attribute
    [(env, prod)]. *)
Example scenario_f1 :
  let cfg := load_config
    {[ "TARGET_FUNCTION_NAMES" := " f1 ,"; "ATTRIBUTE_KEY" := "env";
       "ATTRIBUTE_VALUE" := "prod" ]} in
  let gauge := Metric.mk "aws.lambda.invocations" EmptyString "1"
    (double_gauge (Points.mk
       [DataPoint.mk [StringKeyValue.mk "FunctionName" "f1"] []] [])) in
  let request metrics := ExportMetricsServiceRequest.mk
    [ResourceMetrics.mk [] [InstrumentationLibraryMetrics.mk [] metrics]] in
  add_custom_summary_metric Concrete.clock cfg [request [gauge; gauge]] 0
  = ([request
        [gauge; gauge;
         Metric.mk "amazonaws.com/AWS/Lambda/Custom" EmptyString "{Count}"
           (double_summary (DoubleSummary.mk
              [DoubleSummaryDataPoint.mk
                 [StringKeyValue.mk "Namespace" "AWS/Lambda";
                  StringKeyValue.mk "MetricName" "Custom";
                  StringKeyValue.mk "FunctionName" "f1";
                  StringKeyValue.mk "env" "prod"]
                 1704067200000000000 1704067200000000000 1 1%float
                 [ValueAtQuantile.mk 0%float 1%float;
                  ValueAtQuantile.mk 1%float 1%float]]))]],
     1%nat).
Proof. vm_compute. reflexivity. Qed.

(** ** The handler *)

Section PipelineFacts.
Variable time_time : nat -> Q.
Variable cfg : Config.
Variable ParseFromString : bytes -> option ExportMetricsServiceRequest.t.
Variable SerializeToString : ExportMetricsServiceRequest.t -> bytes.
Variable b64decode : string -> option bytes.
Variable b64encode : bytes -> string.

Local Abbreviation transform' :=
  (transform time_time cfg ParseFromString SerializeToString b64decode b64encode).
Local Abbreviation handler_loop' :=
  (handler_loop time_time cfg ParseFromString SerializeToString b64decode b64encode).
Local Abbreviation handler' :=
  (handler time_time cfg ParseFromString SerializeToString b64decode b64encode).
Local Abbreviation decoded' := (decoded ParseFromString b64decode).
Local Abbreviation encoded' := (encoded SerializeToString b64encode).
Local Abbreviation answers_record' := (answers_record ParseFromString b64decode).
Local Abbreviation answer' :=
  (answer time_time cfg ParseFromString SerializeToString b64decode b64encode).

(** The [try] block is the decoding, then the pass and the encoding. *)
Lemma transform_decoded record tick :
  transform' record tick =
  match decoded' record with
  | Raise e => (Raise e, tick)
  | Ok requests =>
      let '(requests, tick) :=
        add_custom_summary_metric time_time cfg requests tick in
      (Ok (encoded' requests), tick)
  end.
Proof.
  unfold transform, decoded, encoded.
  destruct (record !! "data") as [d|]; [|done].
  destruct (b64decode d) as [payload|]; [|done].
  destruct (parse_delimited_stream ParseFromString payload); done.
Qed.

Lemma handler_loop_step record records output_records tick :
  shaped record ->
  handler_loop' (record :: records) output_records tick
  = handler_loop' records (output_records ++ [(answer' record tick).1])
      (answer' record tick).2.
Proof.
  intros [[id Hid] [d Hd]]. simpl. rewrite Hid, transform_decoded.
  unfold answer. rewrite Hid, Hd. simpl.
  destruct (decoded' record) as [requests|e]; [|done].
  destruct (add_custom_summary_metric time_time cfg requests tick). done.
Qed.

(** On shaped records the loop answers every record, in order. *)
Lemma handler_loop_shaped records output_records tick :
  Forall shaped records ->
  handler_loop' records output_records tick
  = (Ok (output_records ++ (for_each answer' records tick).1),
     (for_each answer' records tick).2).
Proof.
  intros H. revert output_records tick.
  induction H as [|record records Hr _ IH]; intros out tick.
  - simpl. by rewrite app_nil_r.
  - rewrite handler_loop_step by done. simpl.
    destruct (answer' record tick) as [o t1]. simpl. rewrite IH.
    destruct (for_each answer' records t1) as [os t2]. simpl.
    by rewrite <- app_assoc.
Qed.

Lemma for_each_app {A B} (body : A -> nat -> B * nat) l1 l2 tick :
  for_each body (l1 ++ l2) tick
  = let '(k1, tick) := for_each body l1 tick in
    let '(k2, tick) := for_each body l2 tick in
    (k1 ++ k2, tick).
Proof.
  revert tick. induction l1 as [|x l1 IH]; intros tick; simpl.
  - by destruct (for_each body l2 tick).
  - destruct (body x tick) as [y t1]. rewrite IH.
    destruct (for_each body l1 t1) as [k1 t2].
    by destruct (for_each body l2 t2).
Qed.

Lemma for_each_length {A B} (body : A -> nat -> B * nat) l tick :
  length (for_each body l tick).1 = length l.
Proof.
  revert tick. induction l as [|x l IH]; intros tick; simpl; [done|].
  destruct (body x tick) as [y t1]. specialize (IH t1).
  destruct (for_each body l t1). simpl in *. by rewrite IH.
Qed.

(** The answer' to a record whose decoding raises: it is marked failed,
    carries the payload of the record as it came, and the clock is not
    read. *)
Lemma answer_failed record tick :
  is_raise (decoded' record) = true ->
  answer' record tick
  = (OutputRecord.mk (default EmptyString (record !! "recordId")) "ProcessingFailed"
       (default EmptyString (record !! "data")), tick).
Proof.
  unfold answer. by destruct (decoded' record).
Qed.

Lemma answer_answers record tick :
  shaped record -> answers_record' record (answer' record tick).1.
Proof.
  intros [[id Hid] [d Hd]]. unfold answers_record, answer.
  rewrite Hid, Hd. simpl.
  destruct (decoded' record) as [requests|e]; [|done].
  by destruct (add_custom_summary_metric time_time cfg requests tick).
Qed.

Lemma for_each_answers records tick :
  Forall shaped records ->
  Forall2 answers_record' records (for_each answer' records tick).1.
Proof.
  intros H. revert tick. induction H as [|record records Hr _ IH]; intros tick; simpl.
  - constructor.
  - pose proof (answer_answers record tick Hr) as Ha.
    destruct (answer' record tick) as [o t1]. specialize (IH t1).
    destruct (for_each answer' records t1). by constructor.
Qed.

Lemma answers_count records outs :
  Forall2 answers_record' records outs ->
  length (filter (fun o => OutputRecord.result o = "ProcessingFailed") outs)
  = length (filter (fun record => is_raise (decoded' record) = true) records)
  /\ length (filter (fun o => OutputRecord.result o = "Ok") outs)
     = length (filter (fun record => is_raise (decoded' record) = false) records).
Proof.
  induction 1 as [|record o records outs [_ Ho] _ [IH1 IH2]]; [done|].
  rewrite !filter_cons.
  destruct (decoded' record) as [requests|e]; simpl in *.
  - rewrite Ho. simpl. split; [done|]. by rewrite IH2.
  - destruct Ho as [-> _]. simpl. split; [|done]. by rewrite IH1.
Qed.

Lemma handler_shaped event records tick :
  event !! "records" = Some records -> Forall shaped records ->
  handler' event tick
  = (Ok {[ "records" := (for_each answer' records tick).1 ]},
     (for_each answer' records tick).2).
Proof.
  intros He Hs. unfold handler. rewrite He, handler_loop_shaped by done. done.
Qed.

(** C5 (as amended).  On records that have an identifier and a payload the
    handler returns normally, and every error of the decoding of a record becomes
    the answer [ProcessingFailed] for that record, with the payload of the
    record as it came; the records that decode are answered [Ok].  So there
    are as many failed answers as records that fail to decode.  And a
    record that fails to decode leaves the other answers as they are
    without it. *)
Theorem failures_are_isolated event records tick :
  event !! "records" = Some records -> Forall shaped records ->
  exists outs tick',
    handler' event tick = (Ok {[ "records" := outs ]}, tick')
    /\ Forall2 answers_record' records outs
    /\ length (filter (fun o => OutputRecord.result o = "ProcessingFailed") outs)
       = length (filter (fun record => is_raise (decoded' record) = true) records)
    /\ length (filter (fun o => OutputRecord.result o = "Ok") outs)
       = length (filter (fun record => is_raise (decoded' record) = false) records)
    /\ forall before bad after,
         records = before ++ bad :: after ->
         is_raise (decoded' bad) = true ->
         exists o1 o o2,
           handler_loop' (before ++ after) [] tick = (Ok (o1 ++ o2), tick')
           /\ length o1 = length before
           /\ outs = o1 ++ o :: o2
           /\ bad !! "recordId" = Some (OutputRecord.recordId o)
           /\ OutputRecord.result o = "ProcessingFailed"
           /\ bad !! "data" = Some (OutputRecord.data o).
Proof.
  intros He Hs.
  exists (for_each answer' records tick).1, (for_each answer' records tick).2.
  split; [by apply handler_shaped|].
  pose proof (for_each_answers records tick Hs) as Hans.
  split; [done|]. destruct (answers_count _ _ Hans) as [Hc1 Hc2].
  split; [done|]. split; [done|].
  intros before bad after -> Hbad.
  apply Forall_app in Hs as [Hs1 Hs2]. apply Forall_cons in Hs2 as [Hsb Hs2].
  rewrite handler_loop_shaped by (apply Forall_app; done).
  rewrite !for_each_app. simpl.
  pose proof (for_each_length answer' before tick) as Hlen.
  destruct (for_each answer' before tick) as [o1 t1]. simpl in Hlen.
  rewrite answer_failed by done.
  destruct (for_each answer' after t1) as [o2 t2]. simpl.
  exists o1, (OutputRecord.mk (default EmptyString (bad !! "recordId")) "ProcessingFailed"
                (default EmptyString (bad !! "data"))), o2.
  destruct Hsb as [[id Hid] [d Hd]]. rewrite Hid, Hd. done.
Qed.

Lemma augment_empty custom_attrs requests tick :
  Forall (fun request => ExportMetricsServiceRequest.resource_metrics request = [])
         requests ->
  for_each (augment_request time_time cfg custom_attrs) requests tick
  = (requests, tick).
Proof.
  induction 1 as [|[rms] requests Hr _ IH]; simpl; [done|].
  simpl in Hr. subst rms. unfold augment_request at 1. simpl. by rewrite IH.
Qed.

Lemma add_custom_summary_metric_empty requests tick :
  Forall (fun request => ExportMetricsServiceRequest.resource_metrics request = [])
         requests ->
  add_custom_summary_metric time_time cfg requests tick = (requests, tick).
Proof.
  intros H. unfold add_custom_summary_metric.
  destruct (all_set cfg); simpl; [by apply augment_empty|done].
Qed.

(** C8 (as amended).  On records that have an identifier and a payload the
    handler returns one answer per record, in the order of the records and with
    their identifiers.  No record, no answer.  A record whose payload
    decodes to requests without resource metrics is answered [Ok] with
    these requests encoded again, unchanged. *)
Theorem one_answer_per_record event records tick :
  event !! "records" = Some records -> Forall shaped records ->
  exists outs tick',
    handler' event tick = (Ok {[ "records" := outs ]}, tick')
    /\ length outs = length records
    /\ Forall2 (fun record o =>
                  record !! "recordId" = Some (OutputRecord.recordId o))
               records outs
    /\ (records = [] -> outs = [])
    /\ Forall2
         (fun record o =>
            forall requests,
              decoded' record = Ok requests ->
              Forall (fun request =>
                        ExportMetricsServiceRequest.resource_metrics request = [])
                     requests ->
              OutputRecord.result o = "Ok"
              /\ OutputRecord.data o = encoded' requests)
         records outs.
Proof.
  intros He Hs.
  exists (for_each answer' records tick).1, (for_each answer' records tick).2.
  split; [by apply handler_shaped|].
  split; [apply for_each_length|]. split.
  - eapply Forall2_impl; [by apply for_each_answers|]. by intros ?? [? _].
  - split; [by intros ->|].
    apply for_each_Forall2. intros record t requests Hd Hempty.
    unfold answer. rewrite Hd, add_custom_summary_metric_empty by done. done.
Qed.

Lemma for_each_answer_tick records tick :
  all_set cfg = false -> (for_each answer' records tick).2 = tick.
Proof.
  intros Hc. induction records as [|record records IH]; simpl; [done|].
  assert ((answer' record tick).2 = tick) as Ht.
  { unfold answer, add_custom_summary_metric. rewrite Hc.
    by destruct (decoded' record). }
  destruct (answer' record tick) as [o t1]. simpl in Ht. subst t1.
  by destruct (for_each answer' records tick).
Qed.

Lemma decoded_shaped record id requests :
  record !! "recordId" = Some id -> decoded' record = Ok requests ->
  shaped record.
Proof.
  intros Hid Hd. split; [by eexists|]. unfold decoded in Hd.
  destruct (record !! "data"); [by eexists|done].
Qed.

(** C7.  When the target list is empty, or the attribute key or value is
    absent or empty, the pass returns the requests as they are, without
    reading the clock, whatever the requests.  The handler still decodes
    every well-formed record, encodes the decoded requests again and
    reports the record as [Ok]; an event of well-formed records is
    answered [Ok] throughout. *)
Theorem incomplete_configuration_passes_through :
  TARGET_FUNCTION_NAMES cfg = []
  \/ truthy (ATTRIBUTE_KEY cfg) = false \/ truthy (ATTRIBUTE_VALUE cfg) = false ->
  (forall requests tick,
     add_custom_summary_metric time_time cfg requests tick = (requests, tick))
  /\ (forall record id requests rest output_records tick,
        record !! "recordId" = Some id -> decoded' record = Ok requests ->
        handler_loop' (record :: rest) output_records tick
        = handler_loop' rest
            (output_records ++ [OutputRecord.mk id "Ok" (encoded' requests)])
            tick)
  /\ (forall event records tick,
        event !! "records" = Some records ->
        Forall (fun record =>
                  is_Some (record !! "recordId")
                  /\ exists requests, decoded' record = Ok requests) records ->
        exists outs,
          handler' event tick = (Ok {[ "records" := outs ]}, tick)
          /\ Forall2
               (fun record o =>
                  record !! "recordId" = Some (OutputRecord.recordId o)
                  /\ OutputRecord.result o = "Ok"
                  /\ exists requests,
                       decoded' record = Ok requests
                       /\ OutputRecord.data o = encoded' requests)
               records outs).
Proof.
  intros Hcfg.
  assert (Hc : all_set cfg = false).
  { unfold all_set. destruct Hcfg as [->|[->| ->]]; [done| |];
      by rewrite ?andb_false_r. }
  assert (Hpass : forall requests tick,
    add_custom_summary_metric time_time cfg requests tick = (requests, tick)).
  { intros requests t. unfold add_custom_summary_metric. by rewrite Hc. }
  assert (Hans : forall record id requests tick,
    record !! "recordId" = Some id -> decoded' record = Ok requests ->
    answer' record tick = (OutputRecord.mk id "Ok" (encoded' requests), tick)).
  { intros record id requests t Hid Hd. unfold answer.
    by rewrite Hid, Hd, Hpass. }
  split; [exact Hpass|]. split.
  - intros record id requests rest out tick Hid Hd.
    rewrite handler_loop_step by (by eapply decoded_shaped).
    by rewrite (Hans _ _ _ _ Hid Hd).
  - intros event records tick He Hwf.
    assert (Hs : Forall shaped records).
    { eapply Forall_impl; [exact Hwf|].
      intros record [[id Hid] [requests Hd]]. by eapply decoded_shaped. }
    exists (for_each answer' records tick).1. split.
    + rewrite (handler_shaped _ _ _ He Hs). by rewrite for_each_answer_tick.
    + clear He Hs. revert tick.
      induction Hwf as [|record records [[id Hid] [requests Hd]] _ IH];
        intros tick; simpl; [constructor|].
      rewrite (Hans _ _ _ _ Hid Hd). specialize (IH tick).
      destruct (for_each answer' records tick). constructor; [|done].
      simpl. eauto.
Qed.

Lemma handler_loop_raises records output_records tick e tick' :
  handler_loop' records output_records tick = (Raise e, tick') -> e = KeyError.
Proof.
  revert output_records tick.
  induction records as [|record records IH]; intros out tick; simpl; [done|].
  destruct (record !! "recordId") as [id|]; [|by intros [= <- _]].
  destruct (transform' record tick) as [[d|e'] t1]; [apply IH|].
  destruct (record !! "data") as [d|]; [apply IH|by intros [= <- _]].
Qed.

Lemma handler_loop_no_identifier records output_records tick :
  (exists record, record ∈ records /\ record !! "recordId" = None) ->
  exists tick', handler_loop' records output_records tick = (Raise KeyError, tick').
Proof.
  intros (bad & Hin & Hbad). revert output_records tick.
  induction records as [|record records IH]; intros out tick;
    [by apply elem_of_nil in Hin|].
  simpl. destruct (record !! "recordId") as [id|] eqn:Hid; [|by eexists].
  apply elem_of_cons in Hin as [->|Hin]; [congruence|].
  destruct (transform' record tick) as [[d|e'] t1]; [by apply IH|].
  destruct (record !! "data") as [d|]; [by apply IH|by eexists].
Qed.

(** C9 (as amended).  The identifier of a record is read before the
    [try]: if a record of the event has none, the handler raises
    [KeyError] and returns no answers at all.  The [try] covers what comes
    after: a record that has an identifier and a payload whose decoding
    raises, the payload not being base64 or not framing or parsing, is
    answered [ProcessingFailed] with its payload, and the loop goes on. *)
Theorem identifier_is_read_before_try event records tick :
  event !! "records" = Some records ->
  ((exists record, record ∈ records /\ record !! "recordId" = None) ->
   exists tick', handler' event tick = (Raise KeyError, tick'))
  /\ (forall record id data rest output_records t,
        record !! "recordId" = Some id -> record !! "data" = Some data ->
        is_raise (decoded' record) = true ->
        handler_loop' (record :: rest) output_records t
        = handler_loop' rest
            (output_records ++ [OutputRecord.mk id "ProcessingFailed" data]) t).
Proof.
  intros He. split.
  - intros Hbad. unfold handler. rewrite He.
    destruct (handler_loop_no_identifier records [] tick Hbad) as [t' ->].
    by exists t'.
  - intros record id d rest out t Hid Hd Hraise.
    rewrite handler_loop_step by (split; eauto).
    rewrite answer_failed by done. by rewrite Hid, Hd.
Qed.
End PipelineFacts.

(** ** The configuration *)

Lemma split_nonempty sep s : split sep s <> [].
Proof.
  destruct s as [|c s]; simpl; [done|].
  destruct (Ascii.eqb c sep); [done|]. by destruct (split sep s).
Qed.

(** [split] cuts at the separators and nowhere else. *)
Lemma split_join sep s : join sep (split sep s) = s.
Proof.
  induction s as [|c s IH]; simpl; [done|].
  pose proof (split_nonempty sep s) as Hne.
  destruct (Ascii.eqb_spec c sep) as [->|Hc].
  - destruct (split sep s) as [|piece pieces]; [done|].
    simpl in *. by rewrite IH.
  - destruct (split sep s) as [|piece pieces]; [done|].
    destruct pieces; simpl in *; by rewrite <- IH.
Qed.

Lemma split_pieces (P : ascii -> Prop) sep s :
  Forall P (chars s) ->
  Forall (fun piece => Forall (fun c => P c /\ c <> sep) (chars piece)) (split sep s).
Proof.
  induction s as [|c s IH]; simpl; intros H.
  - repeat constructor.
  - apply Forall_cons in H as [Hc H]. specialize (IH H).
    destruct (Ascii.eqb_spec c sep) as [->|Hne].
    + constructor; [constructor|done].
    + destruct (split sep s) as [|piece pieces]; [repeat constructor; done|].
      apply Forall_cons in IH as [Hp Hps].
      constructor; [|done]. simpl. by constructor.
Qed.

Lemma append_nil_l s : String.append EmptyString s = s.
Proof. reflexivity. Qed.

Lemma append_cons_l c s s' :
  String.append (String c s) s' = String c (String.append s s').
Proof. reflexivity. Qed.

Lemma lstrip_spec s :
  exists l, s = String.append l (lstrip s)
    /\ Forall (fun c => isspace c = true) (chars l)
    /\ match lstrip s with
       | EmptyString => True
       | String c _ => isspace c = false
       end.
Proof.
  induction s as [|c s (l & E & Hl & Hs)]; simpl.
  - exists EmptyString. repeat split. constructor.
  - destruct (isspace c) eqn:Hc.
    + exists (String c l). rewrite append_cons_l, <- E.
      split; [done|]. split; [by constructor|done].
    + exists EmptyString. repeat split; [constructor|done].
Qed.

Lemma rstrip_spec s :
  exists r, s = String.append (rstrip s) r
    /\ Forall (fun c => isspace c = true) (chars r)
    /\ (rstrip s = EmptyString
        \/ exists s' c, rstrip s = String.append s' (String c EmptyString)
                        /\ isspace c = false).
Proof.
  induction s as [|c s (r & E & Hr & Hs)]; simpl.
  - exists EmptyString. repeat split; [constructor|by left].
  - destruct (rstrip s) as [|c' s'] eqn:Hrs.
    + rewrite append_nil_l in E. subst r. destruct (isspace c) eqn:Hc.
      * exists (String c s). repeat split; [by constructor|by left].
      * exists s. repeat split; [done|]. right. by exists EmptyString, c.
    + exists r. rewrite append_cons_l, <- E. repeat split; [done|]. right.
      destruct Hs as [?|(s'' & c'' & E' & Hc'')]; [done|].
      exists (String c s''), c''. by rewrite append_cons_l, E'.
Qed.

Lemma rstrip_first s c s' :
  rstrip s = String c s' -> exists s'', s = String c s''.
Proof. destruct s as [|c0 s0]; simpl; [done|]. destruct (rstrip s0); [destruct (isspace c0)|]; intros [= <- _]; eauto. Qed.

(** [strip] removes white space at both ends and nothing else: what is left
    neither starts nor ends with white space. *)
Lemma strip_spec s :
  exists l r,
    s = String.append l (String.append (strip s) r)
    /\ Forall (fun c => isspace c = true) (chars l)
    /\ Forall (fun c => isspace c = true) (chars r)
    /\ (strip s = EmptyString
        \/ (exists c s', strip s = String c s' /\ isspace c = false)
           /\ (exists s' c, strip s = String.append s' (String c EmptyString)
                            /\ isspace c = false)).
Proof.
  unfold strip.
  destruct (lstrip_spec s) as (l & El & Hl & Hfirst).
  destruct (rstrip_spec (lstrip s)) as (r & Er & Hr & Hlast).
  exists l, r. split; [by rewrite <- Er|]. split; [done|]. split; [done|].
  destruct Hlast as [?|Hlast]; [by left|]. right. split; [|done].
  destruct (rstrip (lstrip s)) as [|c s'] eqn:E.
  - destruct Hlast as (s' & c & E' & _). by destruct s'.
  - exists c, s'. split; [done|].
    apply rstrip_first in E as [s'' E]. by rewrite E in Hfirst.
Qed.

Lemma strip_white s :
  Forall (fun c => isspace c = true) (chars s) -> strip s = EmptyString.
Proof.
  intros H. unfold strip.
  assert (lstrip s = EmptyString) as ->; [|done].
  induction s as [|c s IH]; simpl; [done|].
  apply Forall_cons in H as [-> H]. by apply IH.
Qed.

Lemma filter_none {A} (P : A -> Prop) `{!forall x, Decision (P x)} (l : list A) :
  Forall (fun x => ~ P x) l -> filter P l = [].
Proof.
  induction 1 as [|x l Hx _ IH]; [done|].
  rewrite filter_cons. by destruct (decide (P x)).
Qed.

Lemma target_names_elem environ name :
  name ∈ TARGET_FUNCTION_NAMES (load_config environ) <->
  (name <> EmptyString
   /\ exists piece,
        piece ∈ split "," (default EmptyString (environ !! "TARGET_FUNCTION_NAMES"))
        /\ name = strip piece).
Proof.
  simpl. rewrite list_elem_of_fmap. split.
  - intros (piece & -> & [Hne Hin]%list_elem_of_filter). eauto.
  - intros (Hne & piece & Hin & ->). exists piece. split; [done|].
    by apply list_elem_of_filter.
Qed.

(** The white space of [str.isspace] below code point 256: tab to carriage
    return, the four separators, the space, next line and the no-break
    space. *)
Lemma isspace_spec c :
  isspace c = true
  <-> N_of_ascii c ∈ [9; 10; 11; 12; 13; 28; 29; 30; 31; 32; 133; 160].
Proof.
  rewrite <- (bool_decide_spec (N_of_ascii c ∈ _)).
  assert (isspace c
          = bool_decide
              (N_of_ascii c ∈ [9; 10; 11; 12; 13; 28; 29; 30; 31; 32; 133; 160]))
    as ->; [|by destruct (bool_decide _)].
  destruct c as [[] [] [] [] [] [] [] []]; vm_compute; reflexivity.
Qed.

(** C10.  The target names are the pieces of the configured string between
    its commas, stripped of the white space around them, the empty ones left
    out.  A string of commas and white space only gives no name, and then
    the pass does nothing.  A label matches only when its value is one of
    these names, character for character.  Stripping a piece takes away the
    white space before and after it and nothing else: the piece is white
    space, the stripped piece, white space, and the stripped piece is empty
    or has a first and a last character that are no white space. *)
Theorem target_names_from_environment (environ : gmap string string)
    (time_time : nat -> Q) :
  let configured := default EmptyString (environ !! "TARGET_FUNCTION_NAMES") in
  let cfg := load_config environ in
  (join "," (split "," configured) = configured
   /\ Forall (fun piece => Forall (fun c => c <> ","%char) (chars piece))
             (split "," configured))
  /\ (forall name,
        name ∈ TARGET_FUNCTION_NAMES cfg <->
        (name <> EmptyString
         /\ exists piece, piece ∈ split "," configured /\ name = strip piece))
  /\ (Forall (fun c => c = ","%char \/ isspace c = true) (chars configured) ->
      TARGET_FUNCTION_NAMES cfg = []
      /\ forall requests tick,
           add_custom_summary_metric time_time cfg requests tick = (requests, tick))
  /\ (forall custom_attrs st label,
        StringKeyValue.value label ∉ TARGET_FUNCTION_NAMES cfg ->
        scan_label time_time cfg custom_attrs st label = st)
  /\ (forall piece,
        exists l r,
          piece = String.append l (String.append (strip piece) r)
          /\ Forall (fun c => isspace c = true) (chars l)
          /\ Forall (fun c => isspace c = true) (chars r)
          /\ (strip piece = EmptyString
              \/ (exists c s', strip piece = String c s' /\ isspace c = false)
                 /\ (exists s' c,
                       strip piece = String.append s' (String c EmptyString)
                       /\ isspace c = false)))
  /\ (forall c,
        isspace c = true
        <-> N_of_ascii c ∈ [9; 10; 11; 12; 13; 28; 29; 30; 31; 32; 133; 160]).
Proof.
  intros configured cfg.
  split; [split|split; [|split; [|split; [|split]]]];
    [| | | | |apply strip_spec|apply isspace_spec].
  - apply split_join.
  - eapply Forall_impl.
    + apply (split_pieces (fun _ => True)). by apply Forall_forall.
    + intros piece Hp. eapply Forall_impl; [exact Hp|]. by intros c [_ ?].
  - apply target_names_elem.
  - intros Hall.
    assert (Hnil : TARGET_FUNCTION_NAMES cfg = []).
    { simpl. fold configured.
      replace (filter (fun name => strip name <> EmptyString) (split "," configured))
        with (@nil string); [done|].
      symmetry. apply filter_none.
      eapply Forall_impl; [apply (split_pieces _ _ _ Hall)|].
      intros piece Hp Hne. apply Hne, strip_white.
      eapply Forall_impl; [exact Hp|]. intros c [[->|?] ?]; done. }
    split; [done|]. intros requests tick.
    unfold add_custom_summary_metric, all_set. by rewrite Hnil.
  - intros custom_attrs [[seen new] tick] label Hnot. unfold scan_label.
    rewrite (bool_decide_eq_false_2 (_ ∈ _)) by done.
    by rewrite andb_false_r.
Qed.

Example target_names_example :
  TARGET_FUNCTION_NAMES
    (load_config {[ "TARGET_FUNCTION_NAMES" := " f1 , ,f 2,," ]}) = ["f1"; "f 2"]
  /\ TARGET_FUNCTION_NAMES (load_config {[ "TARGET_FUNCTION_NAMES" := " , ,, " ]}) = []
  /\ TARGET_FUNCTION_NAMES (load_config ∅) = [].
Proof. vm_compute. auto. Qed.

(** * The properties at concrete inputs *)

(** The attribute of the synthetic metric is itself a target label here
    ([FunctionName=f2]), and still only [f1], which labels a data point of
    the scope, gets a metric: the pass does not scan what it appends. *)
Example appended_metrics_are_not_scanned :
  let cfg := load_config
    {[ "TARGET_FUNCTION_NAMES" := "f1,f2"; "ATTRIBUTE_KEY" := "FunctionName";
       "ATTRIBUTE_VALUE" := "f2" ]} in
  function_label
  <$> InstrumentationLibraryMetrics.metrics
        (augment_scope Concrete.clock cfg (custom_attrs_dict cfg)
           (Concrete.scope [Concrete.gauge "f1"; Concrete.gauge "f1"]) 0).1
  = [None; None; Some "f1"].
Proof. vm_compute. reflexivity. Qed.


Example ex_varint_300 : EncodeVarint 300 = [xac; x02].
Proof. reflexivity. Qed.
Example ex_dec_300 : DecodeVarint32 [x00; xac; x02; x07] 1 = Ok (300, 3).
Proof. reflexivity. Qed.
Example ex_parse : parse_delimited_stream Some [x02; x07; x08; x00; x05; x01] = Ok [[x07;x08]; []; [x01]].
Proof. vm_compute. reflexivity. Qed.

Example ex_b64 : Concrete.b64encode [x00; xac; x02; x07] = "AKwCBw=="
  /\ Concrete.b64decode "AKwCBw==" = Some [x00; xac; x02; x07]
  /\ Concrete.b64decode "AKwCBw=" = None.
Proof. vm_compute. auto. Qed.

(** Characters outside the alphabet are skipped, what follows a completed
    pad is not read, and a group of one digit or a missing pad raises. *)
Example ex_b64_lenient :
  Concrete.b64decode "!!!" = Some []
  /\ Concrete.b64decode "Ag oA" = Some [x02; x0a; x00]
  /\ Concrete.b64decode "AA==AA" = Some [x00]
  /\ Concrete.b64decode "A=Q=I=" = Some [x01; x02]
  /\ Concrete.b64decode "=AA==" = Some [x00]
  /\ Concrete.b64decode "A===" = None
  /\ Concrete.b64decode "AA=A" = None
  /\ Concrete.b64decode "AQI" = None.
Proof. vm_compute. auto 10. Qed.

Example concrete_handler_run :
  concrete_handler (load_config Concrete.environ)
    {[ "records" := Concrete.records ]} 0
  = (Ok {[ "records" :=
             [OutputRecord.mk "r1" "Ok" "AgoA";
              OutputRecord.mk "r2" "ProcessingFailed" "AKwCBw=";
              OutputRecord.mk "r3" "Ok" EmptyString] ]}, 0%nat).
Proof. vm_compute. reflexivity. Qed.

Ltac shaped_records :=
  repeat constructor; eexists; vm_compute; reflexivity.

(** The guard of the pass comes before the scan: with the target names set
    and no attribute key the configuration is incomplete, and a scope with a
    data point that carries the target value [f1] is left as it is. *)
Example no_summary_without_attribute_key :
  let cfg := load_config Concrete.environ_without_key in
  let requests := [Concrete.request [Concrete.gauge "f1"]] in
  "f1" ∈ TARGET_FUNCTION_NAMES cfg
  /\ points_carrying "f1" (Concrete.scope [Concrete.gauge "f1"]) = 1%nat
  /\ add_custom_summary_metric Concrete.clock cfg requests 0 = (requests, 0%nat).
Proof.
  split; [|split]; [|by vm_compute..]. vm_compute. by left.
Qed.

(** C1 at a scope where [f1] labels two data points and [f2] one. *)
Lemma one_summary_per_function_per_scope_witness :
  let cfg := load_config Concrete.environ in
  let requests :=
    [Concrete.request [Concrete.gauge "f1"; Concrete.gauge "f2"; Concrete.gauge "f1"]] in
  all_set cfg = true
  /\ scopes_related (scope_augmented Concrete.clock cfg) requests
       (add_custom_summary_metric Concrete.clock cfg requests 0).1.
Proof.
  split; [reflexivity|].
  apply (one_summary_per_function_per_scope Concrete.clock
           (load_config Concrete.environ)).
  reflexivity.
Defined.

(** C5, the claim as it stands fails: reading the payload of a record that
    has none raises [KeyError] inside the [try]; the error is caught, but the
    handler raises again while it builds the failed answer, and returns
    nothing. *)
Lemma missing_payload_is_not_converted :
  let cfg := load_config Concrete.environ in
  decoded Concrete.parse Concrete.b64decode Concrete.record_without_data
  = Raise KeyError
  /\ concrete_handler cfg {[ "records" := [Concrete.record_without_data] ]} 0
     = (Raise KeyError, 0%nat).
Proof. by vm_compute. Qed.

(** C5 at an event of three records, the second of which lacks a pad. *)
Lemma failures_are_isolated_witness :
  let cfg := load_config Concrete.environ in
  let event : gmap string (list InputRecord) := {[ "records" := Concrete.records ]} in
  event !! "records" = Some Concrete.records
  /\ Forall shaped Concrete.records
  /\ exists outs tick',
       concrete_handler cfg event 0 = (Ok {[ "records" := outs ]}, tick')
       /\ length (filter (fun o => OutputRecord.result o = "ProcessingFailed") outs)
          = 1%nat.
Proof.
  split; [reflexivity|]. split; [shaped_records|].
  destruct (failures_are_isolated Concrete.clock (load_config Concrete.environ)
              Concrete.parse Concrete.serialize Concrete.b64decode
              Concrete.b64encode {[ "records" := Concrete.records ]}
              Concrete.records 0)
    as (outs & tick' & Hh & _ & Hfailed & _).
  - reflexivity.
  - shaped_records.
  - exists outs, tick'. split; [exact Hh|]. rewrite Hfailed. reflexivity.
Defined.

(** C7 at a configuration without the attribute key. *)
Lemma incomplete_configuration_passes_through_witness :
  let cfg := load_config Concrete.environ_without_key in
  let requests := [Concrete.request [Concrete.gauge "f1"]] in
  truthy (ATTRIBUTE_KEY cfg) = false
  /\ add_custom_summary_metric Concrete.clock cfg requests 0 = (requests, 0%nat).
Proof.
  split; [reflexivity|].
  apply (incomplete_configuration_passes_through Concrete.clock
           (load_config Concrete.environ_without_key)
           Concrete.parse Concrete.serialize Concrete.b64decode Concrete.b64encode).
  right. left. reflexivity.
Defined.

(** C8, the claim as it stands fails: for an event with a record that has
    no identifier the handler raises and returns no list of answers. *)
Lemma no_answers_without_identifier :
  let cfg := load_config Concrete.environ in
  concrete_handler cfg
    {[ "records" := [Concrete.record "r1" "AgoA"; Concrete.record_without_identifier] ]} 0
  = (Raise KeyError, 0%nat).
Proof. by vm_compute. Qed.

(** C8 at an event of three records. *)
Lemma one_answer_per_record_witness :
  let cfg := load_config Concrete.environ in
  let event : gmap string (list InputRecord) := {[ "records" := Concrete.records ]} in
  event !! "records" = Some Concrete.records
  /\ Forall shaped Concrete.records
  /\ exists outs tick',
       concrete_handler cfg event 0 = (Ok {[ "records" := outs ]}, tick')
       /\ length outs = 3%nat.
Proof.
  split; [reflexivity|]. split; [shaped_records|].
  destruct (one_answer_per_record Concrete.clock (load_config Concrete.environ)
              Concrete.parse Concrete.serialize Concrete.b64decode
              Concrete.b64encode {[ "records" := Concrete.records ]}
              Concrete.records 0)
    as (outs & tick' & Hh & Hlen & _).
  - reflexivity.
  - shaped_records.
  - exists outs, tick'. split; [exact Hh|exact Hlen].
Defined.

(** C9, the claim as it stands fails: a record that has an identifier and no
    payload is not answered [ProcessingFailed]; the invocation is aborted,
    and the answer to the record before it is lost with it. *)
Lemma missing_payload_aborts_invocation :
  let cfg := load_config Concrete.environ in
  concrete_handler cfg
    {[ "records" := [Concrete.record "r1" "AgoA"; Concrete.record_without_data] ]} 0
  = (Raise KeyError, 0%nat).
Proof. by vm_compute. Qed.

(** C9 at an event whose second record has no identifier. *)
Lemma identifier_is_read_before_try_witness :
  let cfg := load_config Concrete.environ in
  let records := [Concrete.record "r1" "AgoA"; Concrete.record_without_identifier] in
  let event : gmap string (list InputRecord) := {[ "records" := records ]} in
  event !! "records" = Some records
  /\ exists tick', concrete_handler cfg event 0 = (Raise KeyError, tick').
Proof.
  split; [reflexivity|].
  apply (identifier_is_read_before_try Concrete.clock (load_config Concrete.environ)
           Concrete.parse Concrete.serialize Concrete.b64decode Concrete.b64encode
           {[ "records" := [Concrete.record "r1" "AgoA";
                            Concrete.record_without_identifier] ]}
           [Concrete.record "r1" "AgoA"; Concrete.record_without_identifier] 0).
  - reflexivity.
  - exists Concrete.record_without_identifier. split; [|reflexivity].
    right. left.
Defined.

(** * Further properties *)

(** ** Length prefixes *)

Lemma EncodeVarint_length value k :
  value < 2 ^ (7 * (k + 1)) -> 1 <= len (EncodeVarint value) <= k + 1.
Proof.
  intros Hv. unfold EncodeVarint.
  destruct (EncodeVarint_loop_spec (N.land value 0x7f) (N.shiftr value 7))
    as (init & last & E & _ & _ & _ & Hlen).
  { rewrite <- N.land_assoc. reflexivity. }
  rewrite E, len_app. specialize (Hlen k). unfold len in *. simpl.
  assert (N.shiftr value 7 < 2 ^ (7 * k)); [|lia].
  rewrite N.shiftr_div_pow2. apply N.Div0.div_lt_upper_bound.
  rewrite <- N.pow_add_r. by replace (7 + 7 * k) with (7 * (k + 1)) by lia.
Qed.

Lemma varint_raw_bound p : varint_raw p < 2 ^ (7 * len p).
Proof.
  induction p as [|b p IH]; [by vm_compute|].
  simpl varint_raw. unfold len in *. simpl length.
  replace (7 * N.of_nat (S (length p))) with (7 * N.of_nat (length p) + 7) by lia.
  set (k := 7 * N.of_nat (length p)) in *.
  assert (Hlow : N.land (byte_val b) 127 < 2 ^ (k + 7)).
  { change 127 with (N.ones 7). rewrite N.land_ones.
    eapply N.lt_le_trans; [apply N.mod_upper_bound; by vm_compute|].
    apply N.pow_le_mono_r; lia. }
  assert (Hhigh : N.shiftl (varint_raw p) 7 < 2 ^ (k + 7)).
  { rewrite N.shiftl_mul_pow2, N.pow_add_r. apply N.mul_lt_mono_pos_r; [by vm_compute|done]. }
  destruct (N.eq_dec (N.lor (N.land (byte_val b) 127) (N.shiftl (varint_raw p) 7)) 0)
    as [->|Hne]; [apply N.neq_0_lt_0, N.pow_nonzero; lia|].
  apply N.log2_lt_pow2; [lia|]. rewrite N.log2_lor.
  apply N.max_lub_lt.
  - destruct (N.eq_dec (N.land (byte_val b) 127) 0) as [->|H0]; [simpl; lia|].
    apply N.log2_lt_pow2; [lia|done].
  - destruct (N.eq_dec (N.shiftl (varint_raw p) 7) 0) as [->|H0]; [simpl; lia|].
    apply N.log2_lt_pow2; [lia|done].
Qed.

(** The canonical prefix of a length is the shortest: no complete prefix of
    a value at least as large is shorter. *)
Lemma EncodeVarint_shortest p n :
  complete_prefix p -> n <= varint_value p -> len (EncodeVarint n) <= len p.
Proof.
  intros Hp Hn. pose proof (complete_prefix_len p Hp) as Hpos.
  pose proof (varint_raw_bound p) as Hraw.
  assert (varint_value p <= varint_raw p).
  { unfold varint_value. rewrite N.land_ones. apply N.Div0.mod_le. }
  destruct (EncodeVarint_length n (len p - 1)) as [_ H']; [|lia].
  replace (len p - 1 + 1) with (len p) by lia. lia.
Qed.

(** ** Streams *)

Lemma Frames_app {Msg} (ParseFromString : bytes -> option Msg) fr1 ms1 fr2 ms2 :
  Frames ParseFromString fr1 ms1 -> Frames ParseFromString fr2 ms2 ->
  Frames ParseFromString (fr1 ++ fr2) (ms1 ++ ms2).
Proof.
  induction 1 as [|p body m rest ms Hp Hlen Hm _ IH]; intros H2; [done|].
  rewrite <- !app_assoc. simpl. constructor; auto.
Qed.

Lemma extend_extend {Msg} (ms1 ms2 : list Msg) r :
  extend (ms1 ++ ms2) r = extend ms1 (extend ms2 r).
Proof. destruct r; simpl; [by rewrite app_assoc|done]. Qed.

Lemma parse_frames_tail {Msg} (ParseFromString : bytes -> option Msg) fr ms tail r :
  Frames ParseFromString fr ms -> Tail ParseFromString tail r ->
  parse_delimited_stream ParseFromString (fr ++ tail) = extend ms r.
Proof.
  intros Hfr Htail.
  exact (parse_loop_frames ParseFromString [] fr ms tail r [] Hfr Htail).
Qed.

(** The reader on a run of complete frames followed by any bytes. *)
Lemma parse_after_frames {Msg} (ParseFromString : bytes -> option Msg) fr ms rest :
  Frames ParseFromString fr ms ->
  parse_delimited_stream ParseFromString (fr ++ rest)
  = extend ms (parse_delimited_stream ParseFromString rest).
Proof.
  intros Hfr.
  destruct (frames_tail_exist ParseFromString rest)
    as (fr' & ms' & tail & r & -> & Hfr' & Htail).
  rewrite (parse_frames_tail _ _ _ _ _ Hfr' Htail), app_assoc.
  rewrite (parse_frames_tail _ _ _ _ _ (Frames_app _ _ _ _ _ Hfr Hfr') Htail).
  apply extend_extend.
Qed.

Lemma serialize_app {Msg} (SerializeToString : Msg -> bytes) a b :
  serialize_requests_to_delimited_stream SerializeToString (a ++ b)
  = serialize_requests_to_delimited_stream SerializeToString a
    ++ serialize_requests_to_delimited_stream SerializeToString b.
Proof.
  induction a as [|r a IH]; [done|].
  simpl app. rewrite !serialize_cons, IH. by rewrite <- !app_assoc.
Qed.

(** X1.  The length that the stream reader reads from a prefix written by
    the encoder is the length written, modulo 2^32: lengths below 2^32 are
    read back as they are, from one to five bytes. *)
Theorem length_prefix_read_back (pre rest : bytes) (n : N) :
  n < 2 ^ 64 ->
  DecodeVarint32 (pre ++ EncodeVarint n ++ rest) (len pre)
  = Ok (n mod 2 ^ 32, len pre + len (EncodeVarint n))
  /\ (n < 2 ^ 32 -> 1 <= len (EncodeVarint n) <= 5).
Proof.
  intros Hn. destruct (EncodeVarint_complete n Hn) as [Hp Hraw]. split.
  - rewrite DecodeVarint32_complete by done.
    unfold varint_value. by rewrite Hraw, N.land_ones.
  - intros H32. apply (EncodeVarint_length n 4).
    eapply N.lt_le_trans; [exact H32|]. apply N.pow_le_mono_r; lia.
Qed.

(** X1 at the length 2^32 + 300, which is read back as 300. *)
Lemma length_prefix_read_back_witness :
  2 ^ 32 + 300 < 2 ^ 64
  /\ DecodeVarint32 ([x07] ++ EncodeVarint (2 ^ 32 + 300) ++ [x01]) 1
     = Ok (300, 6).
Proof.
  split; [reflexivity|].
  exact (proj1 (length_prefix_read_back [x07] [x01] (2 ^ 32 + 300) eq_refl)).
Defined.

(** X2.  Streams concatenate.  The stream written for two lists of messages
    one after the other is the two streams one after the other; and the
    reader, on a buffer that starts with the stream of well-formed messages,
    returns these messages followed by what it makes of the rest of the
    buffer, or raises what the rest raises. *)
Theorem streams_concatenate {Msg} (ParseFromString : bytes -> option Msg)
    (SerializeToString : Msg -> bytes) (a b : list Msg) (rest : bytes) :
  well_formed ParseFromString SerializeToString a ->
  serialize_requests_to_delimited_stream SerializeToString (a ++ b)
  = serialize_requests_to_delimited_stream SerializeToString a
    ++ serialize_requests_to_delimited_stream SerializeToString b
  /\ parse_delimited_stream ParseFromString
       (serialize_requests_to_delimited_stream SerializeToString a ++ rest)
     = extend a (parse_delimited_stream ParseFromString rest).
Proof.
  intros Hwf. split; [apply serialize_app|].
  apply parse_after_frames.
  pose proof (serialize_frames SerializeToString ParseFromString id a Hwf) as H.
  by rewrite list_fmap_id in H.
Qed.

(** X2 at the stream of two messages followed by one more frame, and by a
    truncated prefix. *)
Lemma streams_concatenate_witness :
  well_formed Some id [[x2a]; []]
  /\ parse_delimited_stream Some
       (serialize_requests_to_delimited_stream id [[x2a]; []] ++ [x02; x07])
     = Ok [[x2a]; []; [x07]]
  /\ parse_delimited_stream Some
       (serialize_requests_to_delimited_stream id [[x2a]; []] ++ [x80])
     = Raise IndexError.
Proof.
  split; [repeat constructor|]. split.
  - exact (proj2 (streams_concatenate Some id [[x2a]; []] [] [x02; x07]
                    ltac:(repeat constructor))).
  - exact (proj2 (streams_concatenate Some id [[x2a]; []] [] [x80]
                    ltac:(repeat constructor))).
Defined.

Lemma Frames_length {Msg} (ParseFromString : bytes -> option Msg) fr ms :
  Frames ParseFromString fr ms -> (length ms <= length fr)%nat.
Proof.
  induction 1 as [|p body m rest ms Hp _ _ _ IH]; [done|].
  apply complete_prefix_len in Hp. rewrite !length_app. unfold len in Hp. simpl. lia.
Qed.

(** X3.  The reader returns at most one message per byte of the buffer:
    every frame takes at least the byte of its length prefix. *)
Theorem messages_bounded_by_bytes {Msg} (ParseFromString : bytes -> option Msg)
    (data : bytes) (messages : list Msg) :
  parse_delimited_stream ParseFromString data = Ok messages ->
  (length messages <= length data)%nat.
Proof.
  intros H.
  destruct (frames_tail_exist ParseFromString data)
    as (fr & ms & tail & r & -> & Hfr & Htail).
  rewrite (parse_frames_tail _ _ _ _ _ Hfr Htail) in H.
  pose proof (Frames_length _ _ _ Hfr) as Hl. rewrite length_app.
  destruct Htail as [|p body m Hp _ _| | |]; simpl in H; try discriminate;
    injection H as <-; rewrite length_app; simpl; [lia|].
  apply complete_prefix_len in Hp. rewrite length_app. unfold len in Hp. lia.
Qed.

(** X3 at a buffer of four bytes that holds three frames. *)
Lemma messages_bounded_by_bytes_witness :
  let data := [x00; x00; x01; x07] in
  let messages := [[]; []; [x07]] in
  parse_delimited_stream Some data = Ok messages
  /\ (length messages <= length data)%nat.
Proof.
  split; [reflexivity|].
  exact (messages_bounded_by_bytes Some [x00; x00; x01; x07] [[]; []; [x07]] eq_refl).
Defined.

Lemma Frames_reencode fr bodies :
  Frames Some fr bodies ->
  len (serialize_requests_to_delimited_stream id bodies) <= len fr.
Proof.
  induction 1 as [|p body m rest ms Hp Hlen Hm _ IH]; [done|].
  injection Hm as <-. rewrite serialize_cons, !len_app. simpl.
  pose proof (EncodeVarint_shortest p (len body) Hp ltac:(lia)). lia.
Qed.

(** X4.  Writing the frames of a buffer again never gives a longer buffer:
    the encoder writes the shortest prefix of each length, and a last frame
    that the buffer cut short is written with the length it has. *)
Theorem reencoding_not_longer (data : bytes) (bodies : list bytes) :
  parse_delimited_stream Some data = Ok bodies ->
  len (serialize_requests_to_delimited_stream id bodies) <= len data.
Proof.
  intros H.
  destruct (frames_tail_exist Some data)
    as (fr & ms & tail & r & -> & Hfr & Htail).
  rewrite (parse_frames_tail _ _ _ _ _ Hfr Htail) in H.
  pose proof (Frames_reencode _ _ Hfr) as Hl. rewrite len_app.
  destruct Htail as [|p body m Hp Hlen Hm| | |]; simpl in H; try discriminate;
    injection H as <-; rewrite serialize_app, len_app.
  - change (len (serialize_requests_to_delimited_stream id [])) with 0. lia.
  - injection Hm as <-. rewrite serialize_cons, !len_app. simpl.
    pose proof (EncodeVarint_shortest p (len body) Hp ltac:(lia)).
    change (len (serialize_requests_to_delimited_stream id [])) with 0. lia.
Qed.

(** X4 at a buffer of two frames with padded length prefixes: seven bytes
    are written again as four. *)
Lemma reencoding_not_longer_witness :
  parse_delimited_stream Some [x81; x00; x07; x85; x80; x00; x01]
  = Ok [[x07]; [x01]]
  /\ serialize_requests_to_delimited_stream id [[x07]; [x01]]
     = [x01; x07; x01; x01]
  /\ len (serialize_requests_to_delimited_stream id [[x07]; [x01]]) <= 7.
Proof.
  split; [reflexivity|]. split; [reflexivity|].
  exact (reencoding_not_longer [x81; x00; x07; x85; x80; x00; x01]
           [[x07]; [x01]] eq_refl).
Defined.

(** X5.  Framing costs between one and five bytes per message: the stream
    written for messages shorter than 2^32 bytes is as long as the messages
    together, plus a length prefix of one to five bytes for each. *)
Theorem framing_overhead {Msg} (SerializeToString : Msg -> bytes)
    (requests : list Msg) :
  Forall (fun r => len (SerializeToString r) < 2 ^ 32) requests ->
  let payload := sum_list_with (fun r => length (SerializeToString r)) requests in
  let stream := serialize_requests_to_delimited_stream SerializeToString requests in
  (payload + length requests <= length stream
   /\ length stream <= payload + 5 * length requests)%nat.
Proof.
  cbv zeta. induction 1 as [|r rs Hr _ IH]; [split; reflexivity|].
  rewrite serialize_cons, !length_app. simpl sum_list_with.
  rewrite !length_cons.
  destruct (EncodeVarint_length (len (SerializeToString r)) 4) as [H1 H2].
  { eapply N.lt_le_trans; [exact Hr|]. apply N.pow_le_mono_r; lia. }
  unfold len in *. lia.
Qed.

(** X5 at a message of one byte, an empty one and one of 200 bytes. *)
Lemma framing_overhead_witness :
  Forall (fun r : bytes => len (id r) < 2 ^ 32) [[x2a]; []; replicate 200 x07]
  /\ (201 + 3 <= length (serialize_requests_to_delimited_stream id
                           [[x2a]; []; replicate 200 x07]) <= 201 + 15)%nat.
Proof.
  split; [repeat constructor|].
  exact (framing_overhead id [[x2a]; []; replicate 200 x07]
           ltac:(repeat constructor)).
Defined.

(** ** The pass, continued *)

Section PassFacts.
Variable time_time : nat -> Q.

Lemma for_each_id {A} (body : A -> nat -> A * nat) l tick :
  Forall (fun x => forall t, body x t = (x, t)) l -> for_each body l tick = (l, tick).
Proof.
  induction 1 as [|x l Hx _ IH]; simpl; [done|]. by rewrite Hx, IH.
Qed.

Lemma for_each_ext {A B} (f g : A -> nat -> B * nat) l tick :
  (forall x t, f x t = g x t) -> for_each f l tick = for_each g l tick.
Proof.
  intros H. revert tick. induction l as [|x l IH]; intros tick; simpl; [done|].
  rewrite H. destruct (g x tick). by rewrite IH.
Qed.

Lemma first_matches_nil cfg seen labels :
  (forall v, v ∈ TARGET_FUNCTION_NAMES cfg ->
             StringKeyValue.mk FUNCTION_NAME_LABEL_KEY v ∈ labels -> v ∈ seen) ->
  first_matches cfg seen labels = [].
Proof.
  intros H. destruct (first_matches cfg seen labels) as [|v vs] eqn:E; [done|].
  assert (Hv : v ∈ first_matches cfg seen labels) by (rewrite E; by left).
  apply first_matches_spec in Hv as (Hs & Ht & Hl). by destruct Hs; apply H.
Qed.

Lemma augment_scope_id cfg custom_attrs ilm tick :
  (forall v, v ∈ TARGET_FUNCTION_NAMES cfg ->
             StringKeyValue.mk FUNCTION_NAME_LABEL_KEY v ∉ scope_labels ilm) ->
  augment_scope time_time cfg custom_attrs ilm tick = (ilm, tick).
Proof.
  intros H. rewrite augment_scope_spec, first_matches_nil.
  - simpl. destruct ilm. simpl. by rewrite app_nil_r, Nat.add_0_r.
  - intros v Hv Hl. by destruct (H v Hv).
Qed.

(** X6.  Requests in which no data point carries a target function name
    come out of the pass as they went in, and the clock is not read,
    whatever the configuration. *)
Theorem no_match_no_change (cfg : Config)
    (requests : list ExportMetricsServiceRequest.t) (tick : nat) :
  all_scopes
    (fun ilm => forall v, v ∈ TARGET_FUNCTION_NAMES cfg ->
                          StringKeyValue.mk FUNCTION_NAME_LABEL_KEY v
                          ∉ scope_labels ilm)
    requests ->
  add_custom_summary_metric time_time cfg requests tick = (requests, tick).
Proof.
  intros H. unfold add_custom_summary_metric.
  destruct (all_set cfg); simpl; [|done].
  apply for_each_id. eapply Forall_impl; [exact H|].
  intros [rms] Hrms t. unfold augment_request. simpl in *.
  rewrite for_each_id; [done|].
  eapply Forall_impl; [exact Hrms|].
  intros [res ilms] Hilms t'. unfold augment_resource. simpl in *.
  rewrite for_each_id; [done|].
  eapply Forall_impl; [exact Hilms|].
  intros ilm Hilm t''. by apply augment_scope_id.
Qed.

(** X7.  Only the set of the target names counts: two configurations with
    the same names, in any order and with any repetition, and the same
    attribute, make the same pass. *)
Theorem target_order_is_irrelevant (cfg cfg' : Config)
    (requests : list ExportMetricsServiceRequest.t) (tick : nat) :
  (forall v, v ∈ TARGET_FUNCTION_NAMES cfg <-> v ∈ TARGET_FUNCTION_NAMES cfg') ->
  ATTRIBUTE_KEY cfg = ATTRIBUTE_KEY cfg' ->
  ATTRIBUTE_VALUE cfg = ATTRIBUTE_VALUE cfg' ->
  add_custom_summary_metric time_time cfg requests tick
  = add_custom_summary_metric time_time cfg' requests tick.
Proof.
  intros Hset Hk Hv.
  assert (Hall : all_set cfg = all_set cfg').
  { unfold all_set. rewrite Hk, Hv. f_equal. f_equal.
    destruct (TARGET_FUNCTION_NAMES cfg) as [|x l] eqn:E,
             (TARGET_FUNCTION_NAMES cfg') as [|x' l'] eqn:E'; try done.
    - assert (x' ∈ @nil string) as ?%elem_of_nil; [|done]. apply Hset. by left.
    - assert (x ∈ @nil string) as ?%elem_of_nil; [|done]. apply Hset. by left. }
  assert (Hattrs : custom_attrs_dict cfg = custom_attrs_dict cfg').
  { unfold custom_attrs_dict. by rewrite Hk, Hv. }
  assert (Hscope : forall attrs ilm t,
    augment_scope time_time cfg attrs ilm t = augment_scope time_time cfg' attrs ilm t).
  { intros attrs ilm t. rewrite !augment_scope_spec.
    assert (first_matches cfg ∅ (scope_labels ilm)
            = first_matches cfg' ∅ (scope_labels ilm)) as ->; [|done].
    generalize (∅ : gset string). induction (scope_labels ilm) as [|l ls IH];
      intros seen; simpl; [done|].
    rewrite (bool_decide_ext _ _ (Hset (StringKeyValue.value l))).
    destruct (_ && _ && _); by rewrite IH. }
  unfold add_custom_summary_metric. rewrite Hall, Hattrs.
  destruct (all_set cfg'); simpl; [|done].
  apply for_each_ext. intros request t. unfold augment_request.
  rewrite (for_each_ext (augment_resource time_time cfg (custom_attrs_dict cfg'))
             (augment_resource time_time cfg' (custom_attrs_dict cfg'))); [done|].
  intros rm t'. unfold augment_resource.
  by rewrite (for_each_ext _ _ _ _ (Hscope (custom_attrs_dict cfg'))).
Qed.

Lemma first_matches_app cfg seen labels1 labels2 :
  first_matches cfg seen (labels1 ++ labels2)
  = first_matches cfg seen labels1
    ++ first_matches cfg (seen ∪ list_to_set (first_matches cfg seen labels1)) labels2.
Proof.
  revert seen. induction labels1 as [|l ls IH]; intros seen; simpl.
  - by rewrite (right_id_L ∅ (∪)).
  - destruct (_ && _ && _); simpl; rewrite IH; [|done].
    by rewrite (assoc_L (∪)).
Qed.

Lemma metrics_labels_app metrics1 metrics2 :
  metrics_labels (metrics1 ++ metrics2)
  = metrics_labels metrics1 ++ metrics_labels metrics2.
Proof. unfold metrics_labels. by rewrite fmap_app, !concat_app. Qed.

Lemma summaries_labels custom_attrs vs tick label :
  label ∈ metrics_labels (summaries time_time custom_attrs vs tick) ->
  label = StringKeyValue.mk "Namespace" "AWS/Lambda"
  \/ label = StringKeyValue.mk "MetricName" "Custom"
  \/ (exists v, v ∈ vs /\ label = StringKeyValue.mk FUNCTION_NAME_LABEL_KEY v)
  \/ label ∈ ((fun '(key, value) => StringKeyValue.mk key value) <$> custom_attrs).
Proof.
  revert tick. induction vs as [|v vs IH]; intros tick.
  - by intros ?%elem_of_nil.
  - rewrite summaries_cons.
    intros H.
    change (label ∈ metrics_labels
              ([(create_custom_summary_metric time_time v custom_attrs tick).1]
               ++ summaries time_time custom_attrs vs (S tick))) in H.
    rewrite metrics_labels_app, elem_of_app in H. destruct H as [H|H].
    + unfold metrics_labels, create_custom_summary_metric in H. simpl in H.
      rewrite labels_fold, app_nil_r in H.
      apply elem_of_app in H as [H|H]; [|by auto].
      apply elem_of_cons in H as [->|H]; [by auto|].
      apply elem_of_cons in H as [->|H]; [by auto|].
      apply elem_of_cons in H as [->|H]; [|by apply elem_of_nil in H].
      right. right. left. exists v. split; [by left|done].
    + destruct (IH _ H) as [?|[?|[(u & Hu & ->)|?]]]; auto.
      right. right. left. exists u. split; [by right|done].
Qed.

(** A second scan of a scope, after the pass, finds the values of the first
    scan again and no other, when no attribute is itself a function name
    label. *)
Lemma augment_scope_twice cfg custom_attrs ilm tick tick' :
  Forall (fun kv => kv.1 <> FUNCTION_NAME_LABEL_KEY) custom_attrs ->
  let vs := first_matches cfg ∅ (scope_labels ilm) in
  augment_scope time_time cfg custom_attrs
    (augment_scope time_time cfg custom_attrs ilm tick).1 tick'
  = (InstrumentationLibraryMetrics.mk
       (InstrumentationLibraryMetrics.instrumentation_library ilm)
       (InstrumentationLibraryMetrics.metrics ilm
          ++ summaries time_time custom_attrs vs tick
          ++ summaries time_time custom_attrs vs tick'),
     (tick' + length vs)%nat).
Proof.
  intros Hattrs vs. rewrite (augment_scope_spec _ _ _ ilm). simpl.
  rewrite augment_scope_spec. simpl. fold vs.
  assert (first_matches cfg ∅
            (scope_labels
               (InstrumentationLibraryMetrics.mk
                  (InstrumentationLibraryMetrics.instrumentation_library ilm)
                  (InstrumentationLibraryMetrics.metrics ilm
                     ++ summaries time_time custom_attrs vs tick))) = vs) as ->;
    [|by rewrite <- app_assoc].
  unfold scope_labels at 1. simpl.
  rewrite metrics_labels_app, first_matches_app.
  fold (scope_labels ilm). fold vs.
  rewrite (first_matches_nil cfg _ (metrics_labels _)); [by rewrite app_nil_r|].
  - intros v Hv Hl.
    apply summaries_labels in Hl as [E|[E|[(u & Hu & E)|Hl]]];
      [unfold FUNCTION_NAME_LABEL_KEY in E; discriminate..| |].
    + assert (v = u) as -> by congruence.
      apply elem_of_union_r, elem_of_list_to_set, Hu.
    + apply list_elem_of_fmap in Hl as ([k w] & E & Hin).
      rewrite Forall_forall in Hattrs. destruct (Hattrs _ Hin).
      simpl. congruence.
Qed.

Lemma for_each_Forall2_after {A B C} (R : A -> B -> Prop) (Q : A -> C -> Prop)
    (body : B -> nat -> C * nat) l l1 tick :
  Forall2 R l l1 ->
  (forall x y t, R x y -> Q x (body y t).1) ->
  Forall2 Q l (for_each body l1 tick).1.
Proof.
  intros H HQ. revert tick. induction H as [|x y l l1 Hxy _ IH]; intros tick; simpl.
  - constructor.
  - specialize (HQ x y tick Hxy). destruct (body y tick) as [z t1].
    specialize (IH t1). destruct (for_each body l1 t1). by constructor.
Qed.

Lemma scopes_related_after cfg custom_attrs
    (R Q : InstrumentationLibraryMetrics.t -> InstrumentationLibraryMetrics.t -> Prop)
    requests requests1 tick :
  scopes_related R requests requests1 ->
  (forall ilm ilm1 t,
     R ilm ilm1 -> Q ilm (augment_scope time_time cfg custom_attrs ilm1 t).1) ->
  scopes_related Q requests
    (for_each (augment_request time_time cfg custom_attrs) requests1 tick).1.
Proof.
  intros H HQ. eapply for_each_Forall2_after; [exact H|].
  intros request request1 t Hrms. unfold augment_request.
  pose proof (for_each_Forall2_after
    (fun rm rm' =>
       ResourceMetrics.resource rm' = ResourceMetrics.resource rm
       /\ Forall2 R (ResourceMetrics.instrumentation_library_metrics rm)
                    (ResourceMetrics.instrumentation_library_metrics rm'))
    (fun rm rm' =>
       ResourceMetrics.resource rm' = ResourceMetrics.resource rm
       /\ Forall2 Q (ResourceMetrics.instrumentation_library_metrics rm)
                    (ResourceMetrics.instrumentation_library_metrics rm'))
    (augment_resource time_time cfg custom_attrs) _ _ t Hrms) as H'.
  destruct (for_each _ _ t) as [rms t']. simpl. apply H'.
  intros rm rm1 t0 [Hres Hilms]. unfold augment_resource.
  pose proof (for_each_Forall2_after R Q (augment_scope time_time cfg custom_attrs)
                _ _ t0 Hilms HQ) as H''.
  destruct (for_each _ _ t0) as [ilms t1]. simpl. done.
Qed.

(** X8.  The pass is not idempotent.  With a complete configuration whose
    attribute key is not [FunctionName], a second pass over the requests
    that a first pass returned appends to every scope the same synthetic
    metrics once more, for the same values in the same order, each with a
    clock reading of its own. *)
Theorem second_pass_appends_again (cfg : Config)
    (requests : list ExportMetricsServiceRequest.t) (tick tick' : nat) :
  all_set cfg = true ->
  ATTRIBUTE_KEY cfg <> Some FUNCTION_NAME_LABEL_KEY ->
  scopes_related
    (fun ilm ilm'' =>
       exists vs t1 t2,
         (forall v, v ∈ vs <->
                    (v ∈ TARGET_FUNCTION_NAMES cfg /\ (0 < points_carrying v ilm)%nat))
         /\ InstrumentationLibraryMetrics.metrics ilm''
            = InstrumentationLibraryMetrics.metrics ilm
              ++ summaries time_time (custom_attrs_dict cfg) vs t1
              ++ summaries time_time (custom_attrs_dict cfg) vs t2)
    requests
    (add_custom_summary_metric time_time cfg
       (add_custom_summary_metric time_time cfg requests tick).1 tick').1.
Proof.
  intros Hset Hkey. unfold add_custom_summary_metric. rewrite Hset. simpl.
  eapply scopes_related_after.
  - apply (for_each_scopes_related time_time cfg (custom_attrs_dict cfg)
             (fun ilm ilm1 =>
                exists t, ilm1 = (augment_scope time_time cfg
                                    (custom_attrs_dict cfg) ilm t).1)).
    intros ilm t. by exists t.
  - intros ilm ilm1 t2 [t1 ->].
    rewrite augment_scope_twice.
    + simpl. exists (first_matches cfg ∅ (scope_labels ilm)), t1, t2.
      split; [|done]. intros v.
      rewrite first_matches_spec, points_carrying_pos. set_solver.
    + unfold custom_attrs_dict.
      destruct (ATTRIBUTE_KEY cfg) as [k|], (ATTRIBUTE_VALUE cfg) as [w|];
        repeat constructor. simpl. congruence.
Qed.

Lemma summaries_length custom_attrs vs tick :
  length (summaries time_time custom_attrs vs tick) = length vs.
Proof. unfold summaries. by rewrite length_imap. Qed.

Lemma for_each_sum {A} (size : A -> nat) (body : A -> nat -> A * nat) l tick :
  (forall x t, (size (body x t).1 + t = size x + (body x t).2)%nat) ->
  (sum_list_with size (for_each body l tick).1 + tick
   = sum_list_with size l + (for_each body l tick).2)%nat.
Proof.
  intros H. revert tick. induction l as [|x l IH]; intros tick; simpl; [done|].
  specialize (H x tick). destruct (body x tick) as [y t1].
  specialize (IH t1). destruct (for_each body l t1) as [l' t2]. simpl in *. lia.
Qed.

(** X9.  The pass reads the clock once for every metric it appends and at
    no other time: the number of metrics grows by the number of clock
    readings. *)
Theorem clock_read_once_per_metric (cfg : Config)
    (requests : list ExportMetricsServiceRequest.t) (tick : nat) :
  let result := add_custom_summary_metric time_time cfg requests tick in
  (total_metrics result.1 + tick = total_metrics requests + result.2)%nat.
Proof.
  cbv zeta. unfold add_custom_summary_metric, total_metrics.
  destruct (all_set cfg); simpl; [|done].
  apply for_each_sum. intros request t. unfold augment_request.
  pose proof (for_each_sum
    (fun rm =>
       sum_list_with
         (fun ilm => length (InstrumentationLibraryMetrics.metrics ilm))
         (ResourceMetrics.instrumentation_library_metrics rm))
    (augment_resource time_time cfg (custom_attrs_dict cfg))
    (ExportMetricsServiceRequest.resource_metrics request) t) as H.
  destruct (for_each _ _ t) as [rms t']. simpl in *. apply H. clear.
  intros rm t. unfold augment_resource.
  pose proof (for_each_sum
    (fun ilm => length (InstrumentationLibraryMetrics.metrics ilm))
    (augment_scope time_time cfg (custom_attrs_dict cfg))
    (ResourceMetrics.instrumentation_library_metrics rm) t) as H.
  destruct (for_each _ _ t) as [ilms t']. simpl in *. apply H. clear.
  intros ilm t. rewrite augment_scope_spec. simpl.
  rewrite length_app, summaries_length. lia.
Qed.

Lemma remove_dups_snoc (l : list string) x :
  remove_dups (l ++ [x]) = filter (fun y => y <> x) (remove_dups l) ++ [x].
Proof.
  induction l as [|y l IH]; [done|]. simpl.
  destruct (decide_rel elem_of y (l ++ [x])) as [H1|H1],
           (decide_rel elem_of y l) as [H2|H2]; rewrite IH.
  - done.
  - apply elem_of_app in H1 as [?|Hx]; [done|].
    apply list_elem_of_singleton in Hx. subst y.
    by rewrite filter_cons_False by auto.
  - destruct H1. apply elem_of_app. by left.
  - rewrite filter_cons_True; [done|].
    intros ->. apply H1, elem_of_app. right. by left.
Qed.

Lemma first_occurrences_cons x l :
  first_occurrences (x :: l)
  = x :: filter (fun y => y <> x) (first_occurrences l).
Proof.
  unfold first_occurrences.
  rewrite reverse_cons, remove_dups_snoc, reverse_app. simpl.
  by rewrite filter_reverse.
Qed.

Lemma filter_filter_and {A} (P Q : A -> Prop) `{!forall x, Decision (P x)}
    `{!forall x, Decision (Q x)} (l : list A) :
  filter P (filter Q l) = filter (fun x => P x /\ Q x) l.
Proof.
  induction l as [|x l IH]; [done|].
  rewrite (filter_cons Q), (filter_cons (fun x => P x /\ Q x)).
  destruct (decide (Q x)), (decide (P x /\ Q x)) as [[? ?]|Hn];
    rewrite ?filter_cons; try done.
  - rewrite decide_True by done. by rewrite IH.
  - rewrite decide_False by (intros ?; apply Hn; done). done.
Qed.

Lemma first_matches_first_occurrences cfg seen labels :
  first_matches cfg seen labels
  = filter (fun v => v ∉ seen) (first_occurrences (candidates cfg labels)).
Proof.
  revert seen. induction labels as [|label labels IH]; intros seen; [done|].
  simpl. unfold candidates. rewrite filter_cons.
  destruct (decide (StringKeyValue.key label = FUNCTION_NAME_LABEL_KEY
                    /\ StringKeyValue.value label ∈ TARGET_FUNCTION_NAMES cfg))
    as [[Hk Hv]|Hno].
  - rewrite !bool_decide_eq_true_2 by done. simpl.
    change (list_fmap _ _ _ (filter _ labels)) with (candidates cfg labels).
    rewrite first_occurrences_cons.
    rewrite filter_cons. destruct (decide (StringKeyValue.value label ∉ seen)) as [Hs|Hs].
    + rewrite bool_decide_eq_true_2 by done. f_equal.
      rewrite IH, filter_filter_and. apply list_filter_iff. set_solver.
    + rewrite bool_decide_eq_false_2 by done.
      rewrite IH, filter_filter_and. apply list_filter_iff.
      intros v. split; [|by intros [? _]]. intros Hv'. split; [done|].
      intros ->. done.
  - fold (candidates cfg labels).
    assert (bool_decide (StringKeyValue.key label = FUNCTION_NAME_LABEL_KEY)
            && bool_decide (StringKeyValue.value label ∈ TARGET_FUNCTION_NAMES cfg)
            = false) as ->; [|by apply IH].
    apply andb_false_iff. rewrite !bool_decide_eq_false.
    destruct (decide (StringKeyValue.key label = FUNCTION_NAME_LABEL_KEY));
      [right; intros ?; by apply Hno|by left].
Qed.

(** X10.  The synthetic metrics of a scope come in the order in which their
    function names first occur in the scope: the names of the appended
    metrics are the values of the target labels of the scope, in the order
    of the scan, each kept at its first occurrence. *)
Theorem appended_in_order_of_first_occurrence (cfg : Config)
    (requests : list ExportMetricsServiceRequest.t) (tick : nat) :
  all_set cfg = true ->
  scopes_related
    (fun ilm ilm' =>
       exists appended,
         InstrumentationLibraryMetrics.metrics ilm'
         = InstrumentationLibraryMetrics.metrics ilm ++ appended
         /\ function_label <$> appended
            = Some <$> first_occurrences (candidates cfg (scope_labels ilm)))
    requests
    (add_custom_summary_metric time_time cfg requests tick).1.
Proof.
  intros Hset. unfold add_custom_summary_metric. rewrite Hset. simpl.
  apply for_each_scopes_related. intros ilm t.
  rewrite augment_scope_spec. simpl. eexists. split; [done|].
  rewrite first_matches_first_occurrences.
  rewrite (list_filter_iff _ (fun _ => True))
    by (intros v; split; [done|]; intros _; apply not_elem_of_empty).
  assert (Htrue : forall l : list string, filter (fun _ => True) l = l).
  { induction l as [|x l IHl]; [done|]. by rewrite filter_cons_True, IHl. }
  rewrite Htrue. generalize (first_occurrences (candidates cfg (scope_labels ilm))).
  intros vs. revert t. induction vs as [|v vs IH]; intros t; [done|].
  rewrite summaries_cons, !fmap_cons, function_label_summary. f_equal. apply IH.
Qed.
End PassFacts.

(** ** The handler, continued *)

Section HandlerFacts.
Variable time_time : nat -> Q.
Variable cfg : Config.
Variable ParseFromString : bytes -> option ExportMetricsServiceRequest.t.
Variable SerializeToString : ExportMetricsServiceRequest.t -> bytes.
Variable b64decode : string -> option bytes.
Variable b64encode : bytes -> string.

Local Abbreviation handler_loop' :=
  (handler_loop time_time cfg ParseFromString SerializeToString b64decode b64encode).
Local Abbreviation handler' :=
  (handler time_time cfg ParseFromString SerializeToString b64decode b64encode).
Local Abbreviation decoded' := (decoded ParseFromString b64decode).
Local Abbreviation encoded' := (encoded SerializeToString b64encode).
Local Abbreviation answer' :=
  (answer time_time cfg ParseFromString SerializeToString b64decode b64encode).

Lemma lookup_records {A} (x : A) :
  ({[ "records" := x ]} : gmap string A) !! "records" = Some x.
Proof. apply lookup_singleton_eq. Qed.

Lemma shaped_or_not records :
  Forall shaped records \/ Exists (fun record => ~ shaped record) records.
Proof.
  induction records as [|record records [IH|IH]].
  - left. constructor.
  - destruct (record !! "recordId") as [id|] eqn:Hid,
             (record !! "data") as [d|] eqn:Hd.
    + left. constructor; [|done]. split; by eexists.
    + right. left. intros [_ [? ?]]. congruence.
    + right. left. intros [[? ?] _]. congruence.
    + right. left. intros [[? ?] _]. congruence.
  - right. by right.
Qed.

Lemma handler_loop_not_shaped records output_records tick :
  Exists (fun record => ~ shaped record) records ->
  exists tick', handler_loop' records output_records tick = (Raise KeyError, tick').
Proof.
  intros H. revert output_records tick.
  induction H as [record records Hbad|record records _ IH]; intros out tick; simpl.
  - destruct (record !! "recordId") as [id|] eqn:Hid; [|by eexists].
    rewrite transform_decoded. unfold decoded.
    destruct (record !! "data") as [d|] eqn:Hd; [|by eexists].
    destruct Hbad. split; by eexists.
  - destruct (record !! "recordId") as [id|]; [|by eexists].
    destruct (transform _ _ _ _ _ _ record tick) as [[d|e] t1]; [apply IH|].
    destruct (record !! "data"); [apply IH|by eexists].
Qed.

(** X11.  The handler raises exactly when the event has no list of records
    or one of its records lacks the identifier or the payload, and what it
    raises is [KeyError]; nothing else makes an invocation fail. *)
Theorem handler_raises_exactly (event : gmap string (list InputRecord)) (tick : nat) :
  (is_raise (handler' event tick).1 = true <->
   (event !! "records" = None
    \/ exists records,
         event !! "records" = Some records
         /\ Exists (fun record => ~ shaped record) records))
  /\ (forall e tick', handler' event tick = (Raise e, tick') -> e = KeyError).
Proof.
  unfold handler. destruct (event !! "records") as [records|] eqn:He.
  - split.
    + split.
      * intros Hr. right. exists records. split; [done|].
        destruct (shaped_or_not records) as [Hs|Hs]; [|done].
        rewrite handler_loop_shaped in Hr by done. done.
      * intros [?|(records' & [= <-] & Hbad)]; [done|].
        destruct (handler_loop_not_shaped records [] tick Hbad) as [t' ->]. done.
    + intros e t'.
      destruct (handler_loop' records [] tick) as [[outs|e'] t1] eqn:E; [done|].
      intros [= <- _]. by eapply handler_loop_raises.
  - split; [|by intros e t' [= <- _]]. split; [by left|done].
Qed.

Lemma handler_loop_acc records output_records tick :
  handler_loop' records output_records tick
  = match handler_loop' records [] tick with
    | (Ok outs, tick') => (Ok (output_records ++ outs), tick')
    | (Raise e, tick') => (Raise e, tick')
    end.
Proof.
  revert output_records tick.
  induction records as [|record records IH]; intros out tick; simpl.
  - by rewrite app_nil_r.
  - destruct (record !! "recordId") as [id|]; [|done].
    destruct (transform _ _ _ _ _ _ record tick) as [[d|e] t1].
    + rewrite IH, (IH [_]).
      destruct (handler_loop' records [] t1) as [[outs|e'] t2]; [|done].
      by rewrite <- app_assoc.
    + destruct (record !! "data") as [d|]; [|done].
      rewrite IH, (IH [_]).
      destruct (handler_loop' records [] t1) as [[outs|e'] t2]; [|done].
      by rewrite <- app_assoc.
Qed.

Lemma handler_loop_app records1 records2 output_records tick :
  handler_loop' (records1 ++ records2) output_records tick
  = match handler_loop' records1 output_records tick with
    | (Ok outs, tick') => handler_loop' records2 outs tick'
    | (Raise e, tick') => (Raise e, tick')
    end.
Proof.
  revert output_records tick.
  induction records1 as [|record records1 IH]; intros out tick; simpl; [done|].
  destruct (record !! "recordId") as [id|]; [|done].
  destruct (transform _ _ _ _ _ _ record tick) as [[d|e] t1]; [apply IH|].
  destruct (record !! "data") as [d|]; [apply IH|done].
Qed.

(** X13.  An [Ok] answer can be handled again: when base64 and the message
    codec read back what they wrote for the requests after the pass, the
    payload of the answer decodes to exactly these requests. *)
Theorem ok_answer_decodes_again (record : InputRecord) (record_id : string)
    (requests : list ExportMetricsServiceRequest.t) (tick : nat) :
  let after := add_custom_summary_metric time_time cfg requests tick in
  let stream := serialize_requests_to_delimited_stream SerializeToString after.1 in
  record !! "recordId" = Some record_id ->
  decoded' record = Ok requests ->
  b64decode (b64encode stream) = Some stream ->
  well_formed ParseFromString SerializeToString after.1 ->
  exists o,
    handler' {[ "records" := [record] ]} tick = (Ok {[ "records" := [o] ]}, after.2)
    /\ OutputRecord.result o = "Ok"
    /\ decoded' (<[ "data" := OutputRecord.data o ]> record) = Ok after.1.
Proof.
  intros after stream Hid Hd Hb64 Hwf.
  exists (OutputRecord.mk record_id "Ok" (encoded' after.1)).
  split; [|split; [done|]].
  - unfold handler. rewrite lookup_records. simpl.
    rewrite Hid, transform_decoded, Hd. fold after.
    by destruct after.
  - unfold decoded. rewrite lookup_insert_eq. simpl. unfold encoded.
    fold stream. rewrite Hb64. unfold stream.
    pose proof (serialize_frames SerializeToString ParseFromString id _ Hwf) as Hfr.
    rewrite list_fmap_id in Hfr.
    pose proof (parse_loop_frames ParseFromString [] _ _ [] (Ok []) []
                  Hfr (Tail_end _)) as H.
    simpl in H. rewrite !app_nil_r in H. exact H.
Qed.
End HandlerFacts.

(** X12.  Invocations compose: the answers to two lists of records handled
    one after the other, the second from the clock that the first left, are
    the answers to the two lists handled as one; and if the first list makes
    the handler raise, so does the whole. *)
Theorem handler_on_concatenated_records (time_time : nat -> Q) (cfg : Config)
    (ParseFromString : bytes -> option ExportMetricsServiceRequest.t)
    (SerializeToString : ExportMetricsServiceRequest.t -> bytes)
    (b64decode : string -> option bytes) (b64encode : bytes -> string)
    (records1 records2 : list InputRecord) (tick : nat) :
  let run :=
    handler time_time cfg ParseFromString SerializeToString b64decode b64encode in
  match run {[ "records" := records1 ]} tick with
  | (Ok answers1, tick1) =>
      match run {[ "records" := records2 ]} tick1 with
      | (Ok answers2, tick2) =>
          exists outs1 outs2,
            answers1 = {[ "records" := outs1 ]}
            /\ answers2 = {[ "records" := outs2 ]}
            /\ run {[ "records" := records1 ++ records2 ]} tick
               = (Ok {[ "records" := outs1 ++ outs2 ]}, tick2)
      | (Raise e, tick2) =>
          run {[ "records" := records1 ++ records2 ]} tick = (Raise e, tick2)
      end
  | (Raise e, tick1) =>
      run {[ "records" := records1 ++ records2 ]} tick = (Raise e, tick1)
  end.
Proof.
  cbv zeta. unfold handler. rewrite !lookup_records, handler_loop_app.
  destruct (handler_loop _ _ _ _ _ _ records1 [] tick) as [[outs1|e] t1]; [|done].
  rewrite (handler_loop_acc _ _ _ _ _ _ records2 outs1).
  destruct (handler_loop _ _ _ _ _ _ records2 [] t1) as [[outs2|e] t2]; [|done].
  by exists outs1, outs2.
Qed.


(** ** The configuration, continued *)

Lemma chars_append a b : chars (String.append a b) = chars a ++ chars b.
Proof. induction a as [|c a IH]; [done|]. unfold chars in *. simpl. by rewrite IH. Qed.

Lemma rstrip_fixed s c :
  isspace c = false ->
  rstrip (String.append s (String c EmptyString)) = String.append s (String c EmptyString).
Proof.
  intros Hc. induction s as [|c' s IH].
  - simpl. by rewrite Hc.
  - rewrite append_cons_l. simpl. rewrite IH.
    by destruct (String.append s (String c EmptyString)) eqn:E; [destruct s|].
Qed.

Lemma strip_strip s : strip (strip s) = strip s.
Proof.
  destruct (strip_spec s) as (_ & _ & _ & _ & _ & [E|[(c & s' & E & Hc) (s'' & c' & E' & Hc')]]).
  - by rewrite E.
  - unfold strip at 1.
    assert (lstrip (strip s) = strip s) as ->.
    { rewrite E. simpl. by rewrite Hc. }
    rewrite E'. by apply rstrip_fixed.
Qed.

Lemma strip_chars (P : ascii -> Prop) s :
  Forall P (chars s) -> Forall P (chars (strip s)).
Proof.
  destruct (strip_spec s) as (l & r & E & _). intros H.
  rewrite E, !chars_append in H.
  by apply Forall_app in H as [_ [? _]%Forall_app].
Qed.

(** X14.  Every target name that the configuration yields is normalized: it
    is not empty, its first character and its last character are no white
    space, stripping it again changes nothing, and it contains no comma. *)
Theorem target_names_normalized (environ : gmap string string) :
  Forall (fun name =>
            name <> EmptyString
            /\ (exists c s', name = String c s' /\ isspace c = false)
            /\ (exists s' c, name = String.append s' (String c EmptyString)
                             /\ isspace c = false)
            /\ strip name = name
            /\ Forall (fun c => c <> ","%char) (chars name))
         (TARGET_FUNCTION_NAMES (load_config environ)).
Proof.
  apply Forall_forall. intros name Hname.
  apply target_names_elem in Hname as (Hne & piece & Hin & ->).
  split; [done|].
  destruct (strip_spec piece) as (_ & _ & _ & _ & _ & [E|[Hfirst Hlast]]);
    [done|].
  split; [exact Hfirst|]. split; [exact Hlast|].
  split; [apply strip_strip|].
  apply strip_chars.
  pose proof (split_pieces (fun _ => True) ","
    (default EmptyString (environ !! "TARGET_FUNCTION_NAMES"))
    ltac:(by apply Forall_forall)) as Hp.
  rewrite Forall_forall in Hp. specialize (Hp _ Hin).
  eapply Forall_impl; [exact Hp|]. by intros c [_ ?].
Qed.

(** ** The further properties at concrete inputs *)

Lemma concrete_targets :
  TARGET_FUNCTION_NAMES (load_config Concrete.environ) = ["f1"; "f2"].
Proof. reflexivity. Qed.

(** X6 at a request whose only data point is labelled with a function that
    is no target. *)
Lemma no_match_no_change_witness :
  let cfg := load_config Concrete.environ in
  let requests := [Concrete.request [Concrete.gauge "f3"]] in
  all_scopes
    (fun ilm => forall v, v ∈ TARGET_FUNCTION_NAMES cfg ->
                          StringKeyValue.mk FUNCTION_NAME_LABEL_KEY v
                          ∉ scope_labels ilm)
    requests
  /\ add_custom_summary_metric Concrete.clock cfg requests 0 = (requests, 0%nat).
Proof.
  assert (H : all_scopes
    (fun ilm => forall v, v ∈ TARGET_FUNCTION_NAMES (load_config Concrete.environ) ->
                          StringKeyValue.mk FUNCTION_NAME_LABEL_KEY v
                          ∉ scope_labels ilm)
    [Concrete.request [Concrete.gauge "f3"]]).
  { repeat constructor. intros v Hv Hin. rewrite concrete_targets in Hv.
    apply list_elem_of_singleton in Hin. injection Hin as ->.
    apply elem_of_cons in Hv as [Hv|Hv]; [discriminate|].
    apply elem_of_cons in Hv as [Hv|Hv]; [discriminate|].
    by apply elem_of_nil in Hv. }
  split; [exact H|].
  exact (no_match_no_change Concrete.clock (load_config Concrete.environ)
           [Concrete.request [Concrete.gauge "f3"]] 0 H).
Defined.

(** X7 at the target strings [f1, f2] and [f2 ,f1,f1]. *)
Lemma target_order_is_irrelevant_witness :
  let cfg := load_config Concrete.environ in
  let cfg' := load_config
    {[ "TARGET_FUNCTION_NAMES" := "f2 ,f1,f1"; "ATTRIBUTE_KEY" := "env";
       "ATTRIBUTE_VALUE" := "prod" ]} in
  let requests := [Concrete.request [Concrete.gauge "f1"; Concrete.gauge "f2"]] in
  (forall v, v ∈ TARGET_FUNCTION_NAMES cfg <-> v ∈ TARGET_FUNCTION_NAMES cfg')
  /\ TARGET_FUNCTION_NAMES cfg <> TARGET_FUNCTION_NAMES cfg'
  /\ add_custom_summary_metric Concrete.clock cfg requests 0
     = add_custom_summary_metric Concrete.clock cfg' requests 0.
Proof.
  cbv zeta.
  assert (H : forall v,
    v ∈ TARGET_FUNCTION_NAMES (load_config Concrete.environ) <->
    v ∈ TARGET_FUNCTION_NAMES (load_config
      {[ "TARGET_FUNCTION_NAMES" := "f2 ,f1,f1"; "ATTRIBUTE_KEY" := "env";
         "ATTRIBUTE_VALUE" := "prod" ]})).
  { intros v. rewrite concrete_targets.
    change (TARGET_FUNCTION_NAMES _) with ["f2"; "f1"; "f1"].
    rewrite !elem_of_cons. pose proof (elem_of_nil v). tauto. }
  split; [exact H|]. split; [by vm_compute|].
  apply (target_order_is_irrelevant Concrete.clock _ _ _ 0 H); reflexivity.
Defined.

(** X8 at a scope where [f1] labels two data points and [f2] one. *)
Lemma second_pass_appends_again_witness :
  let cfg := load_config Concrete.environ in
  let requests :=
    [Concrete.request [Concrete.gauge "f1"; Concrete.gauge "f2"; Concrete.gauge "f1"]] in
  all_set cfg = true
  /\ ATTRIBUTE_KEY cfg <> Some FUNCTION_NAME_LABEL_KEY
  /\ total_metrics
       (add_custom_summary_metric Concrete.clock cfg
          (add_custom_summary_metric Concrete.clock cfg requests 0).1 2).1
     = 7%nat
  /\ scopes_related
       (fun ilm ilm'' =>
          exists vs t1 t2,
            (forall v, v ∈ vs <->
                       (v ∈ TARGET_FUNCTION_NAMES cfg
                        /\ (0 < points_carrying v ilm)%nat))
            /\ InstrumentationLibraryMetrics.metrics ilm''
               = InstrumentationLibraryMetrics.metrics ilm
                 ++ summaries Concrete.clock (custom_attrs_dict cfg) vs t1
                 ++ summaries Concrete.clock (custom_attrs_dict cfg) vs t2)
       requests
       (add_custom_summary_metric Concrete.clock cfg
          (add_custom_summary_metric Concrete.clock cfg requests 0).1 2).1.
Proof.
  split; [reflexivity|]. split; [by vm_compute|]. split; [reflexivity|].
  apply (second_pass_appends_again Concrete.clock (load_config Concrete.environ));
    [reflexivity|by vm_compute].
Defined.

(** X10 at a scope where the labels come in the order [f2], [f1], [f2]. *)
Lemma appended_in_order_of_first_occurrence_witness :
  let cfg := load_config Concrete.environ in
  let metrics := [Concrete.gauge "f2"; Concrete.gauge "f1"; Concrete.gauge "f2"] in
  all_set cfg = true
  /\ first_occurrences (candidates cfg (scope_labels (Concrete.scope metrics)))
     = ["f2"; "f1"]
  /\ scopes_related
       (fun ilm ilm' =>
          exists appended,
            InstrumentationLibraryMetrics.metrics ilm'
            = InstrumentationLibraryMetrics.metrics ilm ++ appended
            /\ function_label <$> appended
               = Some <$> first_occurrences (candidates cfg (scope_labels ilm)))
       [Concrete.request metrics]
       (add_custom_summary_metric Concrete.clock cfg [Concrete.request metrics] 0).1.
Proof.
  split; [reflexivity|]. split; [by vm_compute|].
  apply (appended_in_order_of_first_occurrence Concrete.clock
           (load_config Concrete.environ)).
  reflexivity.
Defined.

(** X13 at the record [r1], whose payload is one request with one empty
    resource entry. *)
Lemma ok_answer_decodes_again_witness :
  let cfg := load_config Concrete.environ in
  let record := Concrete.record "r1" "AgoA" in
  let requests := [ExportMetricsServiceRequest.mk [ResourceMetrics.mk [] []]] in
  decoded Concrete.parse Concrete.b64decode record = Ok requests
  /\ exists o,
       concrete_handler cfg {[ "records" := [record] ]} 0
       = (Ok {[ "records" := [o] ]}, 0%nat)
       /\ OutputRecord.result o = "Ok"
       /\ decoded Concrete.parse Concrete.b64decode
            (<[ "data" := OutputRecord.data o ]> record) = Ok requests.
Proof.
  split; [reflexivity|].
  apply (ok_answer_decodes_again Concrete.clock (load_config Concrete.environ)
           Concrete.parse Concrete.serialize Concrete.b64decode Concrete.b64encode
           (Concrete.record "r1" "AgoA") "r1"
           [ExportMetricsServiceRequest.mk [ResourceMetrics.mk [] []]] 0).
  - reflexivity.
  - reflexivity.
  - reflexivity.
  - repeat constructor.
Defined.
